(** * xDS endpoint (EDS) resource decoding and validation

    A shallow embedding of [src/core/ext/xds/xds_endpoint.cc]: the EDS
    resource parser ([ServerAddressParse], [LocalityParse],
    [DropParseAndAppend], [EdsResourceParse]), the decode entry point
    ([XdsEndpointResourceType::Decode]) and the drop-policy evaluator
    ([DropConfig::ShouldDrop]), together with the collaborators they use
    ([ValidationErrors], [ParseDuration]).

    Conventions.
    - A [uint32_t] or [int32_t] is a [Z]; where the code computes on a
      [uint32_t] the wrap-around is written out with [wrap32].
    - A [size_t] index or count is a [nat].
    - A pointer returned by a upb accessor that may be [nullptr] is an
      [option].
    - [std::map] keyed by locality name is a [gmap]; [std::vector] is a
      [list] indexed with [!!].
    - The [ValidationErrors*] threaded through the parsers is the state of
      the small state monad [V].
    - Tracing ([MaybeLogClusterLoadAssignment], [gpr_log]) has no effect on
      any result and is left out. *)

From Stdlib Require Import ZArith Lia Ascii String DecimalString Sorted.
From stdpp Require Import base option list gmap strings.

Local Open Scope Z_scope.

(** ** Strings *)

Module Str.

(** [absl::StrCat] of two pieces. *)
Notation "a ^^ b" := (String.append a b)
  (at level 60, right associativity).

(** [absl::StrJoin(parts, sep)]. *)
Definition StrJoin (parts : list string) (sep : string) : string :=
  String.concat sep parts.

(** [absl::StrCat] of a [size_t]: its decimal digits. *)
Definition dec (n : nat) : string :=
  NilZero.string_of_uint (Nat.to_uint n).

(** [std::string::operator<]: bytewise lexicographic order. *)
Definition lt (a b : string) : Prop := String.compare a b = Lt.

End Str.

Import Str.

(** ** Statuses *)

Inductive StatusCode := kOk | kInvalidArgument.

Record Status := { code : StatusCode; message : string }.

Definition InvalidArgumentError (msg : string) : Status :=
  {| code := kInvalidArgument; message := msg |}.

(** [absl::StatusOr<T>]. *)
Inductive StatusOr (T : Type) :=
| IsOk (value : T)
| NotOk (status : Status).
Arguments IsOk {T} value.
Arguments NotOk {T} status.

(** ** ValidationErrors *)

Module ValidationErrors.

(** Modelled from the spec: [src/core/lib/gprpp/validation_errors.h] and
    its implementation are not among the sources.  The accumulator is
    "an ordered stack of path segments (current scope)" and a "mapping
    from fully-qualified field path to list of error messages".  The
    mapping is kept ordered by path, as an ordered map is, so that
    rendering walks it in lexicographic order. *)
Record t := {
  fields_ : list string;
  field_errors_ : list (string * list string)
}.

(** Modelled from the spec: the accumulator as it is "created per
    top-level parse call", with no scope and no error. *)
Definition empty : t := {| fields_ := []; field_errors_ := [] |}.

(** Modelled from the spec: "nested scopes compose by string
    concatenation". *)
Definition current_path (e : t) : string := StrJoin (fields_ e) EmptyString.

(** Modelled from the spec: [ScopedField] "pushes a path segment on
    construction and pops it on every exit path". *)
Definition PushField (ext : string) (e : t) : t :=
  {| fields_ := fields_ e ++ [ext]; field_errors_ := field_errors_ e |}.

(** Modelled from the spec: the pop of [ScopedField]. *)
Definition PopField (e : t) : t :=
  {| fields_ := removelast (fields_ e); field_errors_ := field_errors_ e |}.

(** Modelled from the spec: insertion into the ordered mapping.  The
    message is appended to the list of its path, and a path seen for the
    first time is placed at its position in the order. *)
Fixpoint add_at (path msg : string) (m : list (string * list string))
  : list (string * list string) :=
  match m with
  | [] => [(path, [msg])]
  | (p, msgs) :: rest =>
      match String.compare path p with
      | Lt => (path, [msg]) :: (p, msgs) :: rest
      | Eq => (p, msgs ++ [msg]) :: rest
      | Gt => (p, msgs) :: add_at path msg rest
      end
  end.

(** Modelled from the spec: "[AddError(message)] appends [message] under
    the concatenation of all currently active scopes". *)
Definition AddError (msg : string) (e : t) : t :=
  {| fields_ := fields_ e;
     field_errors_ := add_at (current_path e) msg (field_errors_ e) |}.

(** Modelled from the spec: "[size()] returns total error count". *)
Definition size (e : t) : nat :=
  sum_list (map (fun fe => length (snd fe)) (field_errors_ e)).

(** Modelled from the spec: "[ok()] returns true iff no errors were
    recorded". *)
Definition ok (e : t) : bool :=
  match field_errors_ e with [] => true | _ => false end.

(** The messages recorded under one path. *)
Fixpoint errors_at (path : string) (m : list (string * list string))
  : list string :=
  match m with
  | [] => []
  | (p, msgs) :: rest =>
      if String.eqb path p then msgs else errors_at path rest
  end.

(** Modelled from the spec: each field is "rendered as
    [field:<path> error:<messages joined by ", ">]". *)
Definition render_field (fe : string * list string) : string :=
  "field:" ^^ fst fe ^^ " error:" ^^ StrJoin (snd fe) ", ".

(** Modelled from the spec: "[status(prefix)] renders a single
    deterministic string: prefix, then all field paths with at least one
    error, sorted lexicographically by path, [...] multiple fields joined
    by ["; "], wrapped in [[...]]".  The separator between the prefix and
    the bracket is the [": "] of the messages the tests expect
    ("validation failed: [field:nanos error:...]"), and the code of the
    status is the [kInvalidArgument] they expect. *)
Definition status_message (prefix : string) (e : t) : string :=
  prefix ^^ ": [" ^^ StrJoin (map render_field (field_errors_ e)) "; "
         ^^ "]".

(** Modelled from the spec: the status that carries the message; its
    code is the [kInvalidArgument] that the tests expect of a failed
    validation. *)
Definition status (prefix : string) (e : t) : Status :=
  InvalidArgumentError (status_message prefix e).

(** Every path of the mapping is below the next one, and every path
    present has a message. *)
Definition well_formed (m : list (string * list string)) : Prop :=
  StronglySorted Str.lt (map fst m) /\ Forall (fun fe => snd fe <> []) m.

Definition wf (e : t) : Prop := well_formed (field_errors_ e).

(** The messages recorded under [path] in [e]. *)
Definition at_path (path : string) (e : t) : list string :=
  errors_at path (field_errors_ e).

(** [grows e e']: [e'] is [e] after some blocks have run to their end:
    the scope is the one of [e], and every error of [e] is still
    there. *)
Record grows (e e' : t) : Prop := {
  grows_fields : fields_ e' = fields_ e;
  grows_size : (size e <= size e')%nat;
  grows_ok : ok e = false -> ok e' = false;
  grows_wf : wf e -> wf e';
  grows_at : wf e -> forall q x, In x (at_path q e) -> In x (at_path q e')
}.

End ValidationErrors.

(** ** The state monad of the parsers

    Every parser takes a [ValidationErrors*] and records its errors there:
    a computation is a function of the accumulator that returns its result
    and the accumulator it leaves. *)

Module ErrorMonad.

Definition V (A : Type) : Type :=
  ValidationErrors.t -> A * ValidationErrors.t.

Definition ret {A} (a : A) : V A := fun e => (a, e).

Definition bind {A B} (c : V A) (k : A -> V B) : V B :=
  fun e => let (a, e') := c e in k a e'.

Notation "'let*' x ':=' c 'in' k" := (bind c (fun x => k))
  (at level 10, x binder, c at level 100, k at level 200).
Notation "c ';;' k" := (bind c (fun _ => k))
  (at level 100, k at level 200, right associativity).

(** [errors->AddError(msg)]. *)
Definition AddError (msg : string) : V unit :=
  fun e => (tt, ValidationErrors.AddError msg e).

(** [errors->size()]. *)
Definition size : V nat := fun e => (ValidationErrors.size e, e).

(** [{ ValidationErrors::ScopedField field(errors, ext); body }]: the
    segment is pushed, the block runs, and the segment is popped however
    the block is left. *)
Definition ScopedField {A} (ext : string) (body : V A) : V A :=
  fun e =>
    let (a, e') := body (ValidationErrors.PushField ext e) in
    (a, ValidationErrors.PopField e').

(** A computation is stable when, from any accumulator, it leaves the
    scope as it found it and loses no error. *)
Definition stable {A} (c : V A) : Prop :=
  forall e, ValidationErrors.grows e (snd (c e)).

(** A computation is uniform when its result and the number of errors it
    adds are the same from every accumulator. *)
Definition uniform {A} (c : V A) : Prop :=
  exists (a : A) (n : nat),
    forall e, fst (c e) = a /\
              ValidationErrors.size (snd (c e)) =
                (ValidationErrors.size e + n)%nat.

End ErrorMonad.

Export ErrorMonad.

(** ** The decoded wire messages

    What the upb accessors of the generated headers return: a message
    field that may be absent is an [option], a repeated field is a
    [list]. *)

Record SocketAddress := {
  SocketAddress_address : string;
  SocketAddress_port_value : Z              (* uint32 *)
}.

Record Address := { Address_socket_address : option SocketAddress }.

Record Endpoint := { Endpoint_address : option Address }.

Record LbEndpoint := {
  LbEndpoint_health_status : Z;                     (* int32 *)
  LbEndpoint_load_balancing_weight : option Z;      (* UInt32Value *)
  LbEndpoint_endpoint : option Endpoint
}.

Record Locality := {
  Locality_region : string;
  Locality_zone : string;
  Locality_sub_zone : string
}.

Record LocalityLbEndpoints := {
  LocalityLbEndpoints_load_balancing_weight : option Z;  (* UInt32Value *)
  LocalityLbEndpoints_locality : option Locality;
  LocalityLbEndpoints_lb_endpoints : list LbEndpoint;
  LocalityLbEndpoints_priority : Z                       (* uint32 *)
}.

Record FractionalPercent := {
  FractionalPercent_numerator : Z;          (* uint32 *)
  FractionalPercent_denominator : Z         (* int32, an enum *)
}.

Record DropOverload := {
  DropOverload_category : string;
  DropOverload_drop_percentage : option FractionalPercent
}.

Record Policy := { Policy_drop_overloads : list DropOverload }.

Record ClusterLoadAssignment := {
  ClusterLoadAssignment_cluster_name : string;
  ClusterLoadAssignment_endpoints : list LocalityLbEndpoints;
  ClusterLoadAssignment_policy : option Policy
}.

(** The enum constants of the generated headers, which are not among the
    sources; the values are those of the envoy protobuf definitions
    ([envoy.config.core.v3.HealthStatus],
    [envoy.type.v3.FractionalPercent.DenominatorType]). *)
Definition envoy_config_core_v3_UNKNOWN : Z := 0.
Definition envoy_config_core_v3_HEALTHY : Z := 1.
Definition envoy_type_v3_FractionalPercent_HUNDRED : Z := 0.
Definition envoy_type_v3_FractionalPercent_TEN_THOUSAND : Z := 1.
Definition envoy_type_v3_FractionalPercent_MILLION : Z := 2.

(** ** The resource *)

(** [uint32_t] arithmetic wraps modulo 2^32. *)
Definition wrap32 (z : Z) : Z := z mod 2 ^ 32.

(** [XdsLocalityName]: "a tuple {region, zone, sub-zone} (a
    value-comparable name)". *)
Definition XdsLocalityName : Type := string * string * string.

Record DropCategory := {
  DropCategory_name : string;
  parts_per_million : Z                      (* uint32 *)
}.

Record DropConfig := {
  drop_category_list_ : list DropCategory;
  drop_all_ : bool
}.

(** Modelled from the spec: [DropConfig::AddCategory] is defined in
    [xds_endpoint.h], which is not among the sources; the parser "appends
    {category, ppm} to the DropConfig".  Of the drop-all flag the spec says
    only that it exists, so it is carried unchanged. *)
Definition AddCategory (name : string) (ppm : Z) (d : DropConfig)
  : DropConfig :=
  {| drop_category_list_ :=
       drop_category_list_ d ++
       [{| DropCategory_name := name; parts_per_million := ppm |}];
     drop_all_ := drop_all_ d |}.

Definition empty_DropConfig : DropConfig :=
  {| drop_category_list_ := []; drop_all_ := false |}.

(** The address type of [src/core/lib/iomgr/resolved_address.h] and the
    functions of other files and of upb that the parser calls.  None of
    them is among the sources, so the parser is modelled for any such
    functions:
    - [StringToSockaddr(address_str, port)] of
      [src/core/lib/address_utils/parse_address.h];
    - [XdsLocalityName::AsHumanReadableString()];
    - [envoy_config_endpoint_v3_ClusterLoadAssignment_parse], the wire
      decoder, [None] for [nullptr]. *)
Class Collaborators := {
  grpc_resolved_address : Type;
  StringToSockaddr : string -> Z -> StatusOr grpc_resolved_address;
  AsHumanReadableString : XdsLocalityName -> string;
  ClusterLoadAssignment_parse :
    list Byte.byte -> option ClusterLoadAssignment
}.

Section Parser.

Context {collaborators : Collaborators}.

(** [ServerAddress]: the resolved address and, as its one attribute, the
    endpoint weight.  The address is [None] when [grpc_address] was left
    unassigned because [StringToSockaddr] failed. *)
Record ServerAddress := {
  ServerAddress_address : option grpc_resolved_address;
  ServerAddressWeightAttribute : Z
}.

(** [XdsEndpointResource::Priority::Locality]. *)
Record PriorityLocality := {
  name : XdsLocalityName;
  lb_weight : Z;
  endpoints : list ServerAddress
}.

(** [XdsEndpointResource::Priority]. *)
Record Priority := { localities : gmap XdsLocalityName PriorityLocality }.

Definition empty_Priority : Priority := {| localities := ∅ |}.

Record XdsEndpointResource := {
  priorities : list Priority;
  drop_config : DropConfig
}.

(** [std::vector::resize(n)] with value-initialised new elements. *)
Definition resize (n : nat) (v : list Priority) : list Priority :=
  take n v ++ replicate (n - length v) empty_Priority.

Definition ServerAddressParse (lb_endpoint : LbEndpoint)
  : V (option ServerAddress) :=
  (* health_status: if not HEALTHY or UNKNOWN, skip this endpoint. *)
  let health_status := LbEndpoint_health_status lb_endpoint in
  if negb (health_status =? envoy_config_core_v3_UNKNOWN) &&
     negb (health_status =? envoy_config_core_v3_HEALTHY)
  then ret None
  else
    (* load_balancing_weight *)
    let* weight :=
      ScopedField ".load_balancing_weight"
        match LbEndpoint_load_balancing_weight lb_endpoint with
        | Some w =>
            if w =? 0
            then (AddError "must be greater than 0" ;; ret w)
            else ret w
        | None => ret 1
        end in
    (* endpoint; the outer [None] is [return absl::nullopt] *)
    let* grpc_address :=
      ScopedField ".endpoint"
        match LbEndpoint_endpoint lb_endpoint with
        | None => AddError "field not present" ;; ret None
        | Some endpoint =>
          ScopedField ".address"
            match Endpoint_address endpoint with
            | None => AddError "field not present" ;; ret None
            | Some address =>
              ScopedField ".socket_address"
                match Address_socket_address address with
                | None => AddError "field not present" ;; ret None
                | Some socket_address =>
                  let address_str :=
                    SocketAddress_address socket_address in
                  let* port :=
                    ScopedField ".port_value"
                      (let port :=
                         SocketAddress_port_value socket_address in
                       if negb (Z.shiftr port 16 =? 0)
                       then (AddError "invalid port" ;; ret None)
                       else ret (Some port)) in
                  match port with
                  | None => ret None
                  | Some port =>
                    match StringToSockaddr address_str port with
                    | NotOk st =>
                        AddError (message st) ;; ret (Some None)
                    | IsOk addr => ret (Some (Some addr))
                    end
                  end
                end
            end
        end in
    (* Convert to ServerAddress. *)
    match grpc_address with
    | None => ret None
    | Some grpc_address =>
        ret (Some {| ServerAddress_address := grpc_address;
                     ServerAddressWeightAttribute := weight |})
    end.

Record ParsedLocality := {
  priority : nat;                          (* size_t *)
  locality : PriorityLocality
}.

(** The loop over [lb_endpoints] in [LocalityParse], from index [i]. *)
Fixpoint lb_endpoints_loop (i : nat) (lb_endpoints : list LbEndpoint)
    (acc : list ServerAddress) : V (list ServerAddress) :=
  match lb_endpoints with
  | [] => ret acc
  | lb_endpoint :: rest =>
      let* address :=
        ScopedField (".lb_endpoints[" ^^ dec i ^^ "]")
          (ServerAddressParse lb_endpoint) in
      lb_endpoints_loop (S i) rest
        match address with
        | Some a => acc ++ [a]
        | None => acc
        end
  end.

Definition LocalityParse (locality_lb_endpoints : LocalityLbEndpoints)
  : V (option ParsedLocality) :=
  let* original_error_size := size in
  (* load_balancing_weight: if not specified or 0, the locality is
     assigned no load. *)
  let lb_weight :=
    match LocalityLbEndpoints_load_balancing_weight
            locality_lb_endpoints with
    | Some w => w
    | None => 0
    end in
  if lb_weight =? 0 then ret None
  else
    (* locality *)
    match LocalityLbEndpoints_locality locality_lb_endpoints with
    | None =>
        ScopedField ".locality" (AddError "field not present" ;; ret None)
    | Some locality =>
        let name := (Locality_region locality, Locality_zone locality,
                     Locality_sub_zone locality) in
        (* lb_endpoints *)
        let* endpoints :=
          lb_endpoints_loop 0
            (LocalityLbEndpoints_lb_endpoints locality_lb_endpoints) [] in
        (* priority *)
        let priority :=
          Z.to_nat (LocalityLbEndpoints_priority locality_lb_endpoints) in
        (* Return result. *)
        let* new_error_size := size in
        if negb (original_error_size =? new_error_size)%nat then ret None
        else ret (Some {| priority := priority;
                          locality := {| name := name;
                                         lb_weight := lb_weight;
                                         endpoints := endpoints |} |})
    end.

Definition DropParseAndAppend (drop_overload : DropOverload)
    (drop_config : DropConfig) : V DropConfig :=
  (* category *)
  let category := DropOverload_category drop_overload in
  (if String.eqb category EmptyString
   then ScopedField ".category" (AddError "empty drop category name")
   else ret tt) ;;
  (* drop_percentage; [None] is the [return] *)
  let* numerator :=
    ScopedField ".drop_percentage"
      match DropOverload_drop_percentage drop_overload with
      | None => AddError "field not present" ;; ret None
      | Some drop_percentage =>
          let numerator := FractionalPercent_numerator drop_percentage in
          let* numerator :=
            ScopedField ".denominator"
              (let denominator :=
                 FractionalPercent_denominator drop_percentage in
               (* Normalize to million. *)
               if denominator =? envoy_type_v3_FractionalPercent_HUNDRED
               then ret (wrap32 (numerator * 10000))
               else if denominator =?
                         envoy_type_v3_FractionalPercent_TEN_THOUSAND
               then ret (wrap32 (numerator * 100))
               else if denominator =?
                         envoy_type_v3_FractionalPercent_MILLION
               then ret numerator
               else (AddError "unknown denominator type" ;;
                     ret numerator)) in
          (* Cap numerator to 1000000. *)
          ret (Some (Z.min numerator 1000000))
      end in
  (* Add category. *)
  match numerator with
  | None => ret drop_config
  | Some numerator => ret (AddCategory category numerator drop_config)
  end.

(** The body of the loop over [endpoints] in [EdsResourceParse]. *)
Definition endpoints_step (i : nat) (entry : LocalityLbEndpoints)
    (priorities : list Priority) : V (list Priority) :=
  ScopedField ("[" ^^ dec i ^^ "]")
    (let* parsed_locality := LocalityParse entry in
     match parsed_locality with
     | None => ret priorities
     | Some parsed_locality =>
         let p := priority parsed_locality in
         (* Make sure priorities is big enough. *)
         let priorities :=
           if (length priorities <? p + 1)%nat
           then resize (p + 1) priorities
           else priorities in
         let locality_map :=
           match priorities !! p with
           | Some prio => localities prio
           | None => ∅
           end in
         match locality_map !! name (locality parsed_locality) with
         | Some _ =>
             AddError ("duplicate locality " ^^
                       AsHumanReadableString
                         (name (locality parsed_locality)) ^^
                       " found in priority " ^^ dec p) ;;
             ret priorities
         | None =>
             ret (<[p := {| localities :=
                              <[name (locality parsed_locality) :=
                                  locality parsed_locality]>
                                locality_map |}]> priorities)
         end
     end).

Fixpoint endpoints_loop (i : nat) (entries : list LocalityLbEndpoints)
    (priorities : list Priority) : V (list Priority) :=
  match entries with
  | [] => ret priorities
  | entry :: rest =>
      let* priorities := endpoints_step i entry priorities in
      endpoints_loop (S i) rest priorities
  end.

(** The loop over [eds_resource.priorities] that rejects empty ones. *)
Fixpoint empty_priorities_loop (i : nat) (priorities : list Priority)
  : V unit :=
  match priorities with
  | [] => ret tt
  | prio :: rest =>
      (if decide (localities prio = ∅)
       then AddError ("priority " ^^ dec i ^^ " empty")
       else ret tt) ;;
      empty_priorities_loop (S i) rest
  end.

Fixpoint drop_overloads_loop (i : nat) (drop_overload : list DropOverload)
    (drop_config : DropConfig) : V DropConfig :=
  match drop_overload with
  | [] => ret drop_config
  | d :: rest =>
      let* drop_config :=
        ScopedField (".drop_overloads[" ^^ dec i ^^ "]")
          (DropParseAndAppend d drop_config) in
      drop_overloads_loop (S i) rest drop_config
  end.

(** [EdsResourceParse] up to its last statement: the resource built and
    the errors accumulated. *)
Definition EdsResourceParse_run (cluster_load_assignment : ClusterLoadAssignment)
  : V XdsEndpointResource :=
  (* endpoints *)
  let* priorities :=
    ScopedField "endpoints"
      (let* priorities :=
         endpoints_loop 0
           (ClusterLoadAssignment_endpoints cluster_load_assignment) [] in
       empty_priorities_loop 0 priorities ;;
       ret priorities) in
  (* policy *)
  let* drop_config :=
    match ClusterLoadAssignment_policy cluster_load_assignment with
    | Some policy =>
        ScopedField "policy"
          (drop_overloads_loop 0 (Policy_drop_overloads policy)
             empty_DropConfig)
    | None => ret empty_DropConfig
    end in
  ret {| priorities := priorities; drop_config := drop_config |}.

Definition EdsResourceParse (cluster_load_assignment : ClusterLoadAssignment)
  : StatusOr XdsEndpointResource :=
  let (eds_resource, errors) :=
    EdsResourceParse_run cluster_load_assignment ValidationErrors.empty in
  (* Return result. *)
  if negb (ValidationErrors.ok errors)
  then NotOk (ValidationErrors.status "errors parsing EDS resource" errors)
  else IsOk eds_resource.

(** [XdsResourceType::DecodeResult]. *)
Record DecodeResult := {
  DecodeResult_name : option string;
  DecodeResult_resource : StatusOr XdsEndpointResource
}.

(** [XdsEndpointResourceType::Decode]. *)
Definition Decode (serialized_resource : list Byte.byte) : DecodeResult :=
  (* Parse serialized proto. *)
  match ClusterLoadAssignment_parse serialized_resource with
  | None =>
      {| DecodeResult_name := None;
         DecodeResult_resource :=
           NotOk (InvalidArgumentError
                    "Can't parse ClusterLoadAssignment resource.") |}
  | Some resource =>
      (* Validate resource. *)
      {| DecodeResult_name :=
           Some (ClusterLoadAssignment_cluster_name resource);
         DecodeResult_resource := EdsResourceParse resource |}
  end.

(** [holds ps p n x]: the priority [p] of [ps] has the locality [x]
    under the name [n]. *)
Definition holds (ps : list Priority) (p : nat) (n : XdsLocalityName)
    (x : PriorityLocality) : Prop :=
  exists prio, ps !! p = Some prio /\ localities prio !! n = Some x.

End Parser.

(** ** The drop-policy evaluator *)

Section ShouldDrop.

(** [rand()] of the C library: [rand k] is what its [k]-th call
    returns, and the number of calls made so far is the state. *)
Variable rand : nat -> Z.

(** [static_cast<uint32_t>(rand()) % 1000000] at the [k]-th call. *)
Definition random (k : nat) : Z := wrap32 (rand k) mod 1000000.

(** The loop of [DropConfig::ShouldDrop]; [Some name] is [true] with
    [*category_name] pointing to [name], [None] is [false]. *)
Fixpoint ShouldDrop_loop (drop_category_list : list DropCategory)
    (calls : nat) : option string * nat :=
  match drop_category_list with
  | [] => (None, calls)
  | drop_category :: rest =>
      (* Generate a random number in [0, 1000000). *)
      if random calls <? parts_per_million drop_category
      then (Some (DropCategory_name drop_category), S calls)
      else ShouldDrop_loop rest (S calls)
  end.

Definition ShouldDrop (d : DropConfig) (calls : nat)
  : option string * nat :=
  ShouldDrop_loop (drop_category_list_ d) calls.

End ShouldDrop.

(** *** The distribution of a draw *)

(** The integers from [start] on, [n] of them. *)
Fixpoint rand_values_from (start : Z) (n : nat) : list Z :=
  match n with
  | O => []
  | S n' => start :: rand_values_from (start + 1) n'
  end.

(** The values that one call of [rand()] can return: the integers from 0
    to [RAND_MAX], a constant of the C library (32767 at the least,
    2147483647 in glibc). *)
Definition rand_values (RAND_MAX : Z) : list Z :=
  rand_values_from 0 (Z.to_nat (RAND_MAX + 1)).

(** The number of values of [rand()] for which the draw
    [static_cast<uint32_t>(rand()) % 1000000] is [d]. *)
Definition draws_giving (RAND_MAX d : Z) : nat :=
  length (List.filter (fun r => wrap32 r mod 1000000 =? d)
            (rand_values RAND_MAX)).

(** The draw is uniformly distributed in [0, 1000000) when [rand()] takes
    each of its values as often as any other and every draw of the range
    comes from the same number of them. *)
Definition draw_is_uniform (RAND_MAX : Z) : Prop :=
  forall d d',
    0 <= d < 1000000 -> 0 <= d' < 1000000 ->
    draws_giving RAND_MAX d = draws_giving RAND_MAX d'.

(** ** Durations *)

Record google_protobuf_Duration := {
  Duration_seconds : Z;                       (* int64 *)
  Duration_nanos : Z                          (* int32 *)
}.

(** Modelled from the spec: [ParseDuration] is defined in
    [src/core/ext/xds/xds_common_types.cc], which is not among the sources.
    "seconds ∈ [0, 315,576,000,000], nanos ∈ [0, 999,999,999]; both out of
    range are reported as separate field errors (not short-circuited) and
    combined as milliseconds = seconds×1000 + nanos/1,000,000".  The field
    names and the messages are those its tests expect; the result is the
    number of milliseconds. *)
Definition ParseDuration (proto_duration : google_protobuf_Duration)
  : V Z :=
  let seconds := Duration_seconds proto_duration in
  (if (seconds <? 0) || (315576000000 <? seconds)
   then ScopedField "seconds"
          (AddError "value must be in the range [0, 315576000000]")
   else ret tt) ;;
  let nanos := Duration_nanos proto_duration in
  (if (nanos <? 0) || (999999999 <? nanos)
   then ScopedField "nanos"
          (AddError "value must be in the range [0, 999999999]")
   else ret tt) ;;
  ret (seconds * 1000 + Z.quot nanos 1000000).

(** ** Auxiliary definitions for the statements *)

(** A drop-overload entry whose percentage is present. *)
Definition drop_overload_of (category : string) (numerator denominator : Z)
  : DropOverload :=
  {| DropOverload_category := category;
     DropOverload_drop_percentage :=
       Some {| FractionalPercent_numerator := numerator;
               FractionalPercent_denominator := denominator |} |}.

(** The category part of [DropParseAndAppend]. *)
Definition category_check (category : string) : V unit :=
  if String.eqb category EmptyString
  then ScopedField ".category"
         (AddError "empty drop category name")
  else ret tt.

(** The ranges of a duration. *)
Definition seconds_in_range (d : google_protobuf_Duration) : Prop :=
  0 <= Duration_seconds d <= 315576000000.

Definition nanos_in_range (d : google_protobuf_Duration) : Prop :=
  0 <= Duration_nanos d <= 999999999.

(** ** Vocabulary for the behaviour of the parsers *)

(** [record_at rel msg e]: [e] with the error [msg] recorded under the
    path [rel] below the current scope. *)
Definition record_at (rel msg : string) (e : ValidationErrors.t)
  : ValidationErrors.t :=
  {| ValidationErrors.fields_ := ValidationErrors.fields_ e;
     ValidationErrors.field_errors_ :=
       ValidationErrors.add_at (ValidationErrors.current_path e ^^ rel) msg
         (ValidationErrors.field_errors_ e) |}.

(** The paths under which [e] has errors. *)
Definition paths (e : ValidationErrors.t) : list string :=
  map fst (ValidationErrors.field_errors_ e).

(** A computation is within its scope when every path it adds lies below
    the scope it is run in. *)
Definition within {A} (c : V A) : Prop :=
  forall e k,
    In k (paths (snd (c e))) ->
    In k (paths e) \/ exists rel, k = ValidationErrors.current_path e ^^ rel.

(** A computation is quiet or records when it leaves the accumulator
    exactly as it was or leaves more errors than it found. *)
Definition quiet_or_records {A} (c : V A) : Prop :=
  forall e,
    snd (c e) = e \/
    (ValidationErrors.size e < ValidationErrors.size (snd (c e)))%nat.

(** The health statuses that [ServerAddressParse] lets through. *)
Definition healthy (lb_endpoint : LbEndpoint) : bool :=
  (LbEndpoint_health_status lb_endpoint =? envoy_config_core_v3_UNKNOWN) ||
  (LbEndpoint_health_status lb_endpoint =? envoy_config_core_v3_HEALTHY).

(** The weight of an endpoint: that of its wrapper, 1 without one. *)
Definition endpoint_weight (lb_endpoint : LbEndpoint) : Z :=
  match LbEndpoint_load_balancing_weight lb_endpoint with
  | Some w => w
  | None => 1
  end.

(** The accumulator after the weight block of [ServerAddressParse]: a
    weight of 0 is recorded, any other weight and no weight are not. *)
Definition weight_checked (lb_endpoint : LbEndpoint) (e : ValidationErrors.t)
  : ValidationErrors.t :=
  match LbEndpoint_load_balancing_weight lb_endpoint with
  | Some w =>
      if w =? 0
      then record_at ".load_balancing_weight" "must be greater than 0" e
      else e
  | None => e
  end.

(** The socket address at the end of the chain
    [endpoint.address.socket_address], when all three are present. *)
Definition endpoint_socket_address (lb_endpoint : LbEndpoint)
  : option SocketAddress :=
  match LbEndpoint_endpoint lb_endpoint with
  | Some endpoint =>
      match Endpoint_address endpoint with
      | Some address => Address_socket_address address
      | None => None
      end
  | None => None
  end.

(** The name that [LocalityParse] builds from a locality message. *)
Definition locality_name (l : Locality) : XdsLocalityName :=
  (Locality_region l, Locality_zone l, Locality_sub_zone l).

(** The denominators that [DropParseAndAppend] knows. *)
Definition known_denominator (fp : FractionalPercent) : Prop :=
  FractionalPercent_denominator fp = envoy_type_v3_FractionalPercent_HUNDRED \/
  FractionalPercent_denominator fp =
    envoy_type_v3_FractionalPercent_TEN_THOUSAND \/
  FractionalPercent_denominator fp = envoy_type_v3_FractionalPercent_MILLION.

(** [drops_as d c]: the entry [d] has a name, a percentage and a known
    denominator, and [c] is a category of that name of at most 1,000,000
    parts per million. *)
Definition drops_as (d : DropOverload) (c : DropCategory) : Prop :=
  DropCategory_name c = DropOverload_category d /\
  DropOverload_category d <> EmptyString /\
  (exists fp, DropOverload_drop_percentage d = Some fp /\
              known_denominator fp) /\
  parts_per_million c <= 1000000.

(** The drop-overload entries of a message, none without a policy. *)
Definition policy_drop_overloads (cla : ClusterLoadAssignment)
  : list DropOverload :=
  match ClusterLoadAssignment_policy cla with
  | Some policy => Policy_drop_overloads policy
  | None => []
  end.

Section ParserVocabulary.

Context {collaborators : Collaborators}.

(** [resolves lb_endpoint sa]: the endpoint has its whole address chain,
    a port of 16 bits, an address that [StringToSockaddr] accepts and a
    weight other than 0, and [sa] is that address with that weight. *)
Definition resolves (lb_endpoint : LbEndpoint) (sa : ServerAddress) : Prop :=
  exists socket_address addr,
    endpoint_socket_address lb_endpoint = Some socket_address /\
    Z.shiftr (SocketAddress_port_value socket_address) 16 = 0 /\
    StringToSockaddr (SocketAddress_address socket_address)
      (SocketAddress_port_value socket_address) = IsOk addr /\
    endpoint_weight lb_endpoint <> 0 /\
    sa = {| ServerAddress_address := Some addr;
            ServerAddressWeightAttribute := endpoint_weight lb_endpoint |}.

(** [describes entry parsed]: the entry has a weight other than 0 and a
    locality, every endpoint of it that is not skipped resolves, and
    [parsed] holds the priority, the name, the weight and, in their
    order, the resolved endpoints of the entry. *)
Definition describes (entry : LocalityLbEndpoints) (parsed : ParsedLocality)
  : Prop :=
  exists w l,
    LocalityLbEndpoints_load_balancing_weight entry = Some w /\
    w <> 0 /\
    LocalityLbEndpoints_locality entry = Some l /\
    priority parsed = Z.to_nat (LocalityLbEndpoints_priority entry) /\
    name (locality parsed) = locality_name l /\
    lb_weight (locality parsed) = w /\
    Forall2 resolves
      (List.filter healthy (LocalityLbEndpoints_lb_endpoints entry))
      (endpoints (locality parsed)).

(** Every locality of [ps] is stored under its own name and has a weight
    other than 0. *)
Definition well_keyed (ps : list Priority) : Prop :=
  forall p prio n x,
    ps !! p = Some prio ->
    localities prio !! n = Some x ->
    name x = n /\ lb_weight x <> 0.

End ParserVocabulary.

(** ** Sample inputs *)

Module Sample.

(** A stand-in for [StringToSockaddr]: the address is the host text and
    the port, and an empty host is refused. *)
Definition to_sockaddr (address_str : string) (port : Z)
  : StatusOr (string * Z) :=
  if String.eqb address_str EmptyString
  then NotOk (InvalidArgumentError "Failed to parse address")
  else IsOk (address_str, port).

(** A stand-in for [XdsLocalityName::AsHumanReadableString]. *)
Definition human_readable (n : XdsLocalityName) : string :=
  "{region=" ^^ n.1.1 ^^ ", zone=" ^^ n.1.2 ^^ ", sub_zone=" ^^ n.2 ^^ "}".

Definition lb_endpoint (health_status : Z) (weight : option Z)
    (host : string) (port : Z) : LbEndpoint :=
  {| LbEndpoint_health_status := health_status;
     LbEndpoint_load_balancing_weight := weight;
     LbEndpoint_endpoint :=
       Some {| Endpoint_address :=
                 Some {| Address_socket_address :=
                           Some {| SocketAddress_address := host;
                                   SocketAddress_port_value := port |} |} |}
  |}.

Definition locality_entry (weight : option Z) (region : string)
    (lb_endpoints : list LbEndpoint) (priority : Z) : LocalityLbEndpoints :=
  {| LocalityLbEndpoints_load_balancing_weight := weight;
     LocalityLbEndpoints_locality :=
       Some {| Locality_region := region; Locality_zone := "z";
               Locality_sub_zone := "s" |};
     LocalityLbEndpoints_lb_endpoints := lb_endpoints;
     LocalityLbEndpoints_priority := priority |}.

(** An entry with a weight and no locality: [LocalityParse] records
    "field not present". *)
Definition entry_without_locality : LocalityLbEndpoints :=
  {| LocalityLbEndpoints_load_balancing_weight := Some 1;
     LocalityLbEndpoints_locality := None;
     LocalityLbEndpoints_lb_endpoints := [];
     LocalityLbEndpoints_priority := 0 |}.

Definition cla_of (entries : list LocalityLbEndpoints)
  : ClusterLoadAssignment :=
  {| ClusterLoadAssignment_cluster_name := "foo";
     ClusterLoadAssignment_endpoints := entries;
     ClusterLoadAssignment_policy := None |}.

(** One healthy endpoint in one locality of priority 0. *)
Definition cla_good : ClusterLoadAssignment :=
  cla_of [locality_entry (Some 1) "r" [lb_endpoint 1 None "10.0.0.1" 443] 0].

Definition cla_without_locality : ClusterLoadAssignment :=
  cla_of [entry_without_locality].

(** A locality of weight 0 and nothing else. *)
Definition cla_zero_weight : ClusterLoadAssignment :=
  cla_of [locality_entry (Some 0) "r" [lb_endpoint 1 None "10.0.0.1" 443] 0].

(** Two entries for the locality "r" in priority 0. *)
Definition cla_duplicate : ClusterLoadAssignment :=
  cla_of [locality_entry (Some 1) "r" [] 0; locality_entry (Some 1) "r" [] 0].

(** Localities in priorities 0 and 2, none in priority 1. *)
Definition cla_gap : ClusterLoadAssignment :=
  cla_of [locality_entry (Some 1) "r" [] 0; locality_entry (Some 1) "r" [] 2].

(** Stand-in for the wire decoder, defined by a table: the byte 01 is
    the encoding of [cla_without_locality], the byte 02 that of
    [cla_good], and nothing else decodes. *)
Definition parse (serialized_resource : list Byte.byte)
  : option ClusterLoadAssignment :=
  match serialized_resource with
  | [Byte.x01] => Some cla_without_locality
  | [Byte.x02] => Some cla_good
  | _ => None
  end.

#[local] Instance collaborators : Collaborators := {|
  grpc_resolved_address := (string * Z)%type;
  StringToSockaddr := to_sockaddr;
  AsHumanReadableString := human_readable;
  ClusterLoadAssignment_parse := parse
|}.



(** [rand()] returning 500 at its first call and 50 afterwards. *)
Definition rand (k : nat) : Z :=
  match k with
  | O => 500
  | _ => 50
  end.

Definition two_categories : DropConfig :=
  {| drop_category_list_ :=
       [{| DropCategory_name := "a"; parts_per_million := 100 |};
        {| DropCategory_name := "b"; parts_per_million := 100 |}];
     drop_all_ := false |}.

End Sample.

(** ** Further sample inputs *)

Module MoreSamples.

#[local] Existing Instance Sample.collaborators.

(** A healthy endpoint with its whole address and no weight. *)
Definition ep_good : LbEndpoint := Sample.lb_endpoint 1 None "10.0.0.1" 443.

(** What [Sample.to_sockaddr] makes of the address of [ep_good]. *)
Definition addr_good : grpc_resolved_address := ("10.0.0.1"%string, 443).

(** The address that [ep_good] resolves to. *)
Definition sa_good : ServerAddress :=
  {| ServerAddress_address := Some addr_good;
     ServerAddressWeightAttribute := 1 |}.

Definition ep_zero_weight : LbEndpoint :=
  Sample.lb_endpoint 1 (Some 0) "10.0.0.1" 443.

(** An endpoint that is DRAINING (3). *)
Definition ep_draining : LbEndpoint :=
  Sample.lb_endpoint 3 None "10.0.0.2" 443.

Definition ep_without_endpoint : LbEndpoint :=
  {| LbEndpoint_health_status := 0;
     LbEndpoint_load_balancing_weight := None;
     LbEndpoint_endpoint := None |}.

Definition ep_big_port : LbEndpoint :=
  Sample.lb_endpoint 0 None "10.0.0.1" 65536.

(** An endpoint whose host [Sample.to_sockaddr] refuses. *)
Definition ep_unresolved : LbEndpoint :=
  Sample.lb_endpoint 0 None EmptyString 80.

Definition socket_of (host : string) (port : Z) : SocketAddress :=
  {| SocketAddress_address := host; SocketAddress_port_value := port |}.

(** A locality of weight 3 in priority 1, with [ep_good] and a draining
    endpoint. *)
Definition entry_good : LocalityLbEndpoints :=
  Sample.locality_entry (Some 3) "r" [ep_good; ep_draining] 1.

Definition parsed_good : ParsedLocality :=
  {| priority := 1;
     locality := {| name := ("r"%string, "z"%string, "s"%string);
                    lb_weight := 3;
                    endpoints := [sa_good] |} |}.

(** Two localities in priority 0 and one drop category. *)
Definition cla_full : ClusterLoadAssignment :=
  {| ClusterLoadAssignment_cluster_name := "foo";
     ClusterLoadAssignment_endpoints :=
       [Sample.locality_entry (Some 3) "r" [ep_good; ep_draining] 0;
        Sample.locality_entry (Some 1) "q" [] 0];
     ClusterLoadAssignment_policy :=
       Some {| Policy_drop_overloads :=
                 [drop_overload_of "lb" 50
                    envoy_type_v3_FractionalPercent_HUNDRED] |} |}.

(** The resource that [EdsResourceParse] builds from [cla_full]. *)
Definition resource_full : XdsEndpointResource :=
  fst (EdsResourceParse_run cla_full ValidationErrors.empty).

(** An invalid port in the first entry and a drop-overload entry without
    a percentage. *)
Definition cla_two_errors : ClusterLoadAssignment :=
  {| ClusterLoadAssignment_cluster_name := "foo";
     ClusterLoadAssignment_endpoints :=
       [Sample.locality_entry (Some 1) "r" [ep_big_port] 0];
     ClusterLoadAssignment_policy :=
       Some {| Policy_drop_overloads :=
                 [{| DropOverload_category := "lb";
                     DropOverload_drop_percentage := None |}] |} |}.

Definition drop_all_last : DropConfig :=
  {| drop_category_list_ :=
       [{| DropCategory_name := "a"; parts_per_million := 100 |};
        {| DropCategory_name := "all"; parts_per_million := 1000000 |}];
     drop_all_ := true |}.

Definition drop_nothing : DropConfig :=
  {| drop_category_list_ :=
       [{| DropCategory_name := "a"; parts_per_million := 0 |}];
     drop_all_ := false |}.

End MoreSamples.

(** ** Sample inputs at the edges *)

Module EdgeSamples.

(** An entry without a locality, a locality in priority 2 with none in
    priorities 0 and 1, and a drop-overload entry without a percentage:
    errors under three paths, two of them under the path "endpoints", and
    the path recorded first is not the first in the order. *)
Definition cla_three_fields : ClusterLoadAssignment :=
  {| ClusterLoadAssignment_cluster_name := "foo";
     ClusterLoadAssignment_endpoints :=
       [Sample.entry_without_locality;
        Sample.locality_entry (Some 1) "r" [] 2];
     ClusterLoadAssignment_policy :=
       Some {| Policy_drop_overloads :=
                 [{| DropOverload_category := "lb";
                     DropOverload_drop_percentage := None |}] |} |}.

(** One locality and a drop-overload entry of 429497 per HUNDRED, whose
    product with 10000 does not fit in a [uint32_t]. *)
Definition cla_wrapping_drop : ClusterLoadAssignment :=
  {| ClusterLoadAssignment_cluster_name := "foo";
     ClusterLoadAssignment_endpoints :=
       [Sample.locality_entry (Some 1) "r" [] 0];
     ClusterLoadAssignment_policy :=
       Some {| Policy_drop_overloads :=
                 [drop_overload_of "lb" 429497
                    envoy_type_v3_FractionalPercent_HUNDRED] |} |}.

(** Stand-in for the wire decoder: the byte 03 is the encoding of
    [cla_three_fields], the byte 04 that of [cla_wrapping_drop], and the
    other byte strings decode as with [Sample.parse]. *)
Definition parse (serialized_resource : list Byte.byte)
  : option ClusterLoadAssignment :=
  match serialized_resource with
  | [Byte.x03] => Some cla_three_fields
  | [Byte.x04] => Some cla_wrapping_drop
  | _ => Sample.parse serialized_resource
  end.

#[local] Instance collaborators : Collaborators := {|
  grpc_resolved_address := (string * Z)%type;
  StringToSockaddr := Sample.to_sockaddr;
  AsHumanReadableString := Sample.human_readable;
  ClusterLoadAssignment_parse := parse
|}.

(** One category of 40,000 parts per million, 4%. *)
Definition four_percent : DropConfig :=
  {| drop_category_list_ :=
       [{| DropCategory_name := "a"; parts_per_million := 40000 |}];
     drop_all_ := false |}.

End EdgeSamples.

(** * Properties *)

(** ** The order of paths *)

Module StrFacts.

Lemma compare_refl (s : string) : String.compare s s = Eq.
Proof.
  induction s as [|a s IH]; simpl; [reflexivity|].
  unfold Ascii.compare. now rewrite N.compare_refl.
Qed.

Lemma lt_irrefl (s : string) : ~ Str.lt s s.
Proof. unfold Str.lt. now rewrite compare_refl. Qed.

Lemma lt_le (a b : string) : Str.lt a b -> String.le a b.
Proof. unfold Str.lt, String.le, String.leb. now intros ->. Qed.

Lemma lt_asym (a b : string) : Str.lt a b -> ~ Str.lt b a.
Proof.
  unfold Str.lt. intros H. rewrite String.compare_antisym, H. discriminate.
Qed.

Lemma lt_trans (a b c : string) : Str.lt a b -> Str.lt b c -> Str.lt a c.
Proof.
  intros Hab Hbc.
  assert (Hle : String.le a c).
  { transitivity b; now apply lt_le. }
  unfold Str.lt. unfold String.le, String.leb in Hle.
  destruct (String.compare a c) eqn:Hac; [|reflexivity|now destruct Hle].
  apply String.compare_eq_iff in Hac. subst c.
  now destruct (lt_asym _ _ Hab).
Qed.

Lemma gt_lt (a b : string) : String.compare a b = Gt -> Str.lt b a.
Proof.
  unfold Str.lt. intros H. now rewrite String.compare_antisym, H.
Qed.

Lemma eqb_false_lt (a b : string) : Str.lt a b -> String.eqb a b = false.
Proof.
  intros H. apply String.eqb_neq. intros ->. now apply lt_irrefl in H.
Qed.

Lemma append_cons (a : ascii) (s t : string) :
  String a s ^^ t = String a (s ^^ t).
Proof. reflexivity. Qed.

Lemma append_nil_r (s : string) : s ^^ EmptyString = s.
Proof.
  induction s as [|a s IH]; [reflexivity|]. now rewrite append_cons, IH.
Qed.

Lemma append_assoc (a b c : string) : (a ^^ b) ^^ c = a ^^ b ^^ c.
Proof.
  induction a as [|x a IH]; [reflexivity|]. now rewrite !append_cons, IH.
Qed.

Lemma StrJoin_empty_cons (x : string) (l : list string) :
  StrJoin (x :: l) EmptyString = x ^^ StrJoin l EmptyString.
Proof.
  unfold StrJoin. destruct l as [|y l]; simpl; [|reflexivity].
  now rewrite append_nil_r.
Qed.

Lemma StrJoin_empty_snoc (l : list string) (x : string) :
  StrJoin (l ++ [x]) EmptyString = StrJoin l EmptyString ^^ x.
Proof.
  induction l as [|y l IH].
  - reflexivity.
  - change ((y :: l) ++ [x]) with (y :: (l ++ [x])).
    now rewrite !StrJoin_empty_cons, IH, append_assoc.
Qed.

End StrFacts.

(** ** The accumulator *)

Module VEFacts.
Import ValidationErrors StrFacts.

Lemma wf_empty : wf empty.
Proof. split; constructor. Qed.

Lemma add_at_not_nil path msg m : add_at path msg m <> [].
Proof.
  destruct m as [|[p msgs] rest]; simpl; [discriminate|].
  destruct (String.compare path p); discriminate.
Qed.

Lemma add_at_keys path msg m k :
  In k (map fst (add_at path msg m)) -> k = path \/ In k (map fst m).
Proof.
  induction m as [|[p msgs] rest IH]; simpl.
  - intuition.
  - destruct (String.compare path p) eqn:Hc; simpl; intuition.
Qed.

Lemma add_at_well_formed path msg m :
  well_formed m -> well_formed (add_at path msg m).
Proof.
  intros [Hs Hn]. induction m as [|[p msgs] rest IH]; simpl.
  - split; repeat constructor. discriminate.
  - simpl in Hs. apply StronglySorted_inv in Hs as [Hs Hall].
    apply Forall_cons_1 in Hn as [Hp Hn].
    destruct (String.compare path p) eqn:Hc.
    + split; constructor; auto.
      simpl. intros Happ. now destruct msgs.
    + split; [|constructor; [discriminate|now constructor]].
      simpl. constructor; [now constructor|].
      constructor; [exact Hc|].
      eapply Forall_impl; [exact Hall|].
      intros k Hk. now apply lt_trans with p.
    + destruct (IH Hs Hn) as [Hs' Hn'].
      split; [|now constructor].
      simpl. constructor; [exact Hs'|].
      apply Forall_forall. intros k Hk.
      apply list_elem_of_In, add_at_keys in Hk as [->|Hk].
      * now apply gt_lt.
      * rewrite Forall_forall in Hall. now apply Hall, list_elem_of_In.
Qed.

Lemma errors_at_absent path m :
  Forall (Str.lt path) (map fst m) -> errors_at path m = [].
Proof.
  induction m as [|[p msgs] rest IH]; simpl; [reflexivity|].
  intros H. apply Forall_cons_1 in H as [Hp H].
  rewrite (eqb_false_lt _ _ Hp). now apply IH.
Qed.

(** The message added is recorded under the path it was added at. *)
Lemma errors_at_add_at_new path msg m :
  In msg (errors_at path (add_at path msg m)).
Proof.
  induction m as [|[p msgs] rest IH]; simpl.
  - rewrite String.eqb_refl. now left.
  - destruct (String.compare path p) eqn:Hc; simpl.
    + apply String.compare_eq_iff in Hc. subst p.
      rewrite String.eqb_refl. apply in_or_app. right. now left.
    + rewrite String.eqb_refl. now left.
    + destruct (String.eqb_spec path p) as [->|_]; [|exact IH].
      now rewrite compare_refl in Hc.
Qed.

(** Nothing that was recorded is lost. *)
Lemma errors_at_add_at_old path msg m q x :
  well_formed m ->
  In x (errors_at q m) -> In x (errors_at q (add_at path msg m)).
Proof.
  intros [Hs _]. induction m as [|[p msgs] rest IH]; simpl; [tauto|].
  simpl in Hs. apply StronglySorted_inv in Hs as [Hs Hall].
  destruct (String.compare path p) eqn:Hc; simpl.
  - destruct (String.eqb q p); [|tauto].
    intros Hx. apply in_or_app. now left.
  - destruct (String.eqb_spec q path) as [->|_]; [|tauto].
    rewrite (eqb_false_lt _ _ Hc).
    rewrite errors_at_absent; [intros []|].
    eapply Forall_impl; [exact Hall|].
    intros k Hk. now apply lt_trans with p.
  - destruct (String.eqb q p); [tauto|]. now apply IH.
Qed.

Lemma size_AddError msg e : size (AddError msg e) = S (size e).
Proof.
  unfold size, AddError. simpl.
  generalize (current_path e). intros path.
  induction (field_errors_ e) as [|[p msgs] rest IH]; simpl.
  - reflexivity.
  - destruct (String.compare path p); simpl.
    + rewrite length_app. simpl. lia.
    + reflexivity.
    + rewrite IH. lia.
Qed.

Lemma ok_AddError msg e : ok (AddError msg e) = false.
Proof.
  unfold ok, AddError. simpl.
  pose proof (add_at_not_nil (current_path e) msg (field_errors_ e)).
  now destruct (add_at _ _ _).
Qed.

Lemma size_PushField ext e : size (PushField ext e) = size e.
Proof. reflexivity. Qed.

Lemma size_PopField e : size (PopField e) = size e.
Proof. reflexivity. Qed.

Lemma PopField_PushField ext e : PopField (PushField ext e) = e.
Proof.
  destruct e as [fs fe]. unfold PopField, PushField. simpl.
  now rewrite removelast_last.
Qed.

Lemma grows_refl e : grows e e.
Proof. split; auto. Qed.

Lemma grows_trans e1 e2 e3 : grows e1 e2 -> grows e2 e3 -> grows e1 e3.
Proof.
  intros [F1 S1 O1 W1 A1] [F2 S2 O2 W2 A2]. split.
  - congruence.
  - lia.
  - auto.
  - auto.
  - intros Hwf q x Hx. apply A2; auto.
Qed.

Lemma grows_AddError msg e : grows e (AddError msg e).
Proof.
  split.
  - reflexivity.
  - rewrite size_AddError. lia.
  - intros _. apply ok_AddError.
  - intros Hwf. now apply add_at_well_formed.
  - intros Hwf q x Hx. now apply errors_at_add_at_old.
Qed.

Lemma grows_scope ext e e' :
  grows (PushField ext e) e' -> grows e (PopField e').
Proof.
  intros [F S O W A]. split; auto.
  simpl. rewrite F. simpl. apply removelast_last.
Qed.

Lemma current_path_PushField ext e :
  current_path (PushField ext e) = current_path e ^^ ext.
Proof. apply StrJoin_empty_snoc. Qed.

Lemma current_path_grows e e' : grows e e' -> current_path e' = current_path e.
Proof. intros H. unfold current_path. now rewrite (grows_fields _ _ H). Qed.

Lemma at_path_not_ok q x e : In x (at_path q e) -> ok e = false.
Proof. unfold at_path, ok. now destruct (field_errors_ e). Qed.

Lemma at_path_AddError msg e : In msg (at_path (current_path e) (AddError msg e)).
Proof. apply errors_at_add_at_new. Qed.

End VEFacts.

(** ** Computations that only add errors *)

Module Stable.
Import ValidationErrors VEFacts.

Lemma stable_ret {A} (a : A) : stable (ret a).
Proof. intros e. apply grows_refl. Qed.

Lemma stable_bind {A B} (c : V A) (k : A -> V B) :
  stable c -> (forall a, stable (k a)) -> stable (bind c k).
Proof.
  intros Hc Hk e. unfold bind.
  specialize (Hc e). destruct (c e) as [a e']. simpl in Hc.
  eapply grows_trans; [exact Hc|apply Hk].
Qed.

Lemma stable_AddError msg : stable (ErrorMonad.AddError msg).
Proof. intros e. apply grows_AddError. Qed.

Lemma stable_size : stable ErrorMonad.size.
Proof. intros e. apply grows_refl. Qed.

Lemma stable_ScopedField {A} ext (body : V A) :
  stable body -> stable (ScopedField ext body).
Proof.
  intros Hb e. unfold ScopedField.
  specialize (Hb (PushField ext e)).
  destruct (body (PushField ext e)) as [a e']. simpl in *.
  now apply grows_scope with ext.
Qed.

Create HintDb stable discriminated.
#[export] Hint Resolve stable_ret stable_AddError stable_size : stable.

(** One step of a stability proof: follow the structure of the
    computation. *)
Ltac stable_step :=
  match goal with
  | |- forall _, _ => intro
  | |- stable (ret _) => apply stable_ret
  | |- stable (ErrorMonad.AddError _) => apply stable_AddError
  | |- stable ErrorMonad.size => apply stable_size
  | |- stable (ScopedField _ _) => apply stable_ScopedField
  | |- stable (bind _ _) => apply stable_bind
  | |- stable (match ?x with _ => _ end) => destruct x
  | |- stable _ => solve [auto with stable]
  end.

Ltac stable := repeat stable_step.

End Stable.

Module Uniform.
Import ValidationErrors VEFacts.

Lemma uniform_ret {A} (a : A) : uniform (ret a).
Proof. exists a, 0%nat. intros e. simpl. split; [reflexivity|lia]. Qed.

Lemma uniform_bind {A B} (c : V A) (k : A -> V B) :
  uniform c -> (forall a, uniform (k a)) -> uniform (bind c k).
Proof.
  intros (a & n & Hc) Hk. destruct (Hk a) as (b & m & Hb).
  exists b, (n + m)%nat. intros e. unfold bind.
  destruct (Hc e) as [Ha Hn]. destruct (c e) as [a' e']. simpl in Ha, Hn.
  subst a'. destruct (Hb e') as [Hb1 Hb2]. split; [exact Hb1|lia].
Qed.

Lemma uniform_AddError msg : uniform (ErrorMonad.AddError msg).
Proof.
  exists tt, 1%nat. intros e. unfold ErrorMonad.AddError. simpl.
  rewrite size_AddError. split; [reflexivity|lia].
Qed.

Lemma uniform_ScopedField {A} ext (body : V A) :
  uniform body -> uniform (ScopedField ext body).
Proof.
  intros (a & n & Hb). exists a, n. intros e. unfold ScopedField.
  destruct (Hb (PushField ext e)) as [Ha Hn].
  destruct (body (PushField ext e)) as [a' e']. simpl in *.
  now rewrite size_PopField, Hn, size_PushField.
Qed.

Ltac uniform_step :=
  match goal with
  | |- forall _, _ => intro
  | |- uniform (ret _) => apply uniform_ret
  | |- uniform (ErrorMonad.AddError _) => apply uniform_AddError
  | |- uniform (ScopedField _ _) => apply uniform_ScopedField
  | |- uniform (bind _ _) => apply uniform_bind
  | |- uniform (match ?x with _ => _ end) => destruct x
  end.

Ltac uniform := repeat uniform_step.

End Uniform.

Section ParserFacts.
Import ValidationErrors VEFacts Stable Uniform.

Context {collaborators : Collaborators}.

Lemma stable_ServerAddressParse lb_endpoint :
  stable (ServerAddressParse lb_endpoint).
Proof. unfold ServerAddressParse. stable. Qed.

Lemma stable_lb_endpoints_loop lb_endpoints :
  forall i acc, stable (lb_endpoints_loop i lb_endpoints acc).
Proof.
  induction lb_endpoints as [|ep rest IH]; intros i acc; simpl.
  - stable.
  - apply stable_bind; [|intro; apply IH].
    apply stable_ScopedField, stable_ServerAddressParse.
Qed.

Lemma stable_LocalityParse entry : stable (LocalityParse entry).
Proof.
  unfold LocalityParse. stable.
  apply stable_lb_endpoints_loop.
Qed.

Lemma stable_DropParseAndAppend d cfg : stable (DropParseAndAppend d cfg).
Proof. unfold DropParseAndAppend. stable. Qed.

Lemma stable_drop_overloads_loop ds :
  forall i cfg, stable (drop_overloads_loop i ds cfg).
Proof.
  induction ds as [|d rest IH]; intros i cfg; simpl.
  - stable.
  - apply stable_bind; [|intro; apply IH].
    apply stable_ScopedField, stable_DropParseAndAppend.
Qed.

Lemma stable_endpoints_step i entry ps : stable (endpoints_step i entry ps).
Proof.
  unfold endpoints_step. stable.
  apply stable_LocalityParse.
Qed.

Lemma stable_endpoints_loop entries :
  forall i ps, stable (endpoints_loop i entries ps).
Proof.
  induction entries as [|entry rest IH]; intros i ps; simpl.
  - stable.
  - apply stable_bind; [apply stable_endpoints_step|intro; apply IH].
Qed.

Lemma stable_empty_priorities_loop (ps : list Priority) :
  forall i, stable (empty_priorities_loop i ps).
Proof.
  induction ps as [|p rest IH]; intros i; simpl.
  - stable.
  - apply stable_bind; [stable|intro; apply IH].
Qed.

(** *** What [LocalityParse] returns *)

Lemma size_not_ok e : ValidationErrors.size e <> 0%nat -> ok e = false.
Proof.
  unfold ValidationErrors.size, ok. now destruct (field_errors_ e).
Qed.

(** The three ways [LocalityParse] ends, by the fields of the entry. *)
Lemma LocalityParse_no_weight entry e :
  LocalityLbEndpoints_load_balancing_weight entry = None \/
  LocalityLbEndpoints_load_balancing_weight entry = Some 0 ->
  LocalityParse entry e = (None, e).
Proof.
  unfold LocalityParse, bind, ErrorMonad.size, ret.
  now intros [-> | ->].
Qed.

Lemma LocalityParse_result entry e :
  ValidationErrors.size (snd (LocalityParse entry e)) <>
    ValidationErrors.size e ->
  fst (LocalityParse entry e) = None.
Proof.
  unfold LocalityParse, bind, ErrorMonad.size, ret.
  destruct (_ =? 0); [reflexivity|].
  destruct (LocalityLbEndpoints_locality entry) as [loc|]; [|reflexivity].
  destruct (lb_endpoints_loop _ _ _ e) as [eps e1].
  destruct (Nat.eqb_spec (ValidationErrors.size e) (ValidationErrors.size e1))
    as [Heq|Hne]; simpl; [|reflexivity].
  intros H. now rewrite Heq in H.
Qed.

(** The assertion [GPR_ASSERT(parsed_locality->locality.lb_weight != 0)]
    of [EdsResourceParse] holds. *)
Lemma LocalityParse_weight entry e parsed e' :
  LocalityParse entry e = (Some parsed, e') ->
  lb_weight (locality parsed) <> 0.
Proof.
  unfold LocalityParse, bind, ErrorMonad.size, ret.
  destruct (Z.eqb_spec
              match LocalityLbEndpoints_load_balancing_weight entry with
              | Some w => w
              | None => 0
              end 0) as [|Hw]; [discriminate|].
  destruct (LocalityLbEndpoints_locality entry) as [loc|];
    [|unfold ScopedField, ErrorMonad.AddError; discriminate].
  destruct (lb_endpoints_loop _ _ _ e) as [eps e1].
  destruct (negb _); [discriminate|].
  intros [= <- _]. exact Hw.
Qed.

(** *** What one step of the loop over the entries does *)

Lemma endpoints_step_None i entry ps e e1 :
  LocalityParse entry (PushField ("[" ^^ dec i ^^ "]") e) = (None, e1) ->
  endpoints_step i entry ps e = (ps, PopField e1).
Proof.
  intros H. unfold endpoints_step, ScopedField, bind.
  now rewrite H.
Qed.

(** Whether [LocalityParse] records an error does not depend on the
    errors recorded before. *)
Lemma uniform_ServerAddressParse lb_endpoint :
  uniform (ServerAddressParse lb_endpoint).
Proof. unfold ServerAddressParse. uniform. Qed.

Lemma uniform_lb_endpoints_loop lb_endpoints :
  forall i acc, uniform (lb_endpoints_loop i lb_endpoints acc).
Proof.
  induction lb_endpoints as [|ep rest IH]; intros i acc; simpl.
  - uniform.
  - apply uniform_bind; [|intro; apply IH].
    apply uniform_ScopedField, uniform_ServerAddressParse.
Qed.

Lemma LocalityParse_records entry e0 :
  ValidationErrors.size (snd (LocalityParse entry e0)) <>
    ValidationErrors.size e0 ->
  forall e, ValidationErrors.size (snd (LocalityParse entry e)) <>
            ValidationErrors.size e.
Proof.
  unfold LocalityParse, bind, ErrorMonad.size, ret.
  destruct (_ =? 0); [intros Hne; contradiction|].
  destruct (LocalityLbEndpoints_locality entry) as [loc|].
  - destruct (uniform_lb_endpoints_loop
                (LocalityLbEndpoints_lb_endpoints entry) 0 [])
      as (eps & n & Hu).
    intros Hne e.
    destruct (Hu e0) as [_ Hn0]. destruct (Hu e) as [_ Hn].
    destruct (lb_endpoints_loop _ _ _ e0) as [eps0 e1].
    destruct (lb_endpoints_loop _ _ _ e) as [eps' e'].
    simpl in Hn0, Hn.
    assert (Hpos : n <> 0%nat).
    { intros ->. apply Hne.
      destruct (negb (ValidationErrors.size e0 =? ValidationErrors.size e1)%nat);
        cbn [snd]; lia. }
    destruct (negb (ValidationErrors.size e =? ValidationErrors.size e')%nat);
      cbn [snd]; lia.
  - intros _ e. unfold ScopedField, ErrorMonad.AddError. simpl.
    rewrite size_PopField, size_AddError, size_PushField. lia.
Qed.

Lemma endpoints_loop_rejects entries :
  forall j ps e i entry,
    entries !! i = Some entry ->
    (forall e0, ValidationErrors.size (snd (LocalityParse entry e0)) <>
                ValidationErrors.size e0) ->
    ok (snd (endpoints_loop j entries ps e)) = false.
Proof.
  induction entries as [|en rest IH]; intros j ps e i entry Hi Herr;
    [discriminate|].
  simpl. unfold bind.
  pose proof (stable_endpoints_step j en ps e) as Hstep.
  destruct (endpoints_step j en ps e) as [ps' e'] eqn:Hs. simpl in Hstep.
  destruct i as [|i]; simpl in Hi.
  - injection Hi as ->.
    apply (grows_ok _ _ (stable_endpoints_loop rest (S j) ps' e')).
    apply size_not_ok.
    specialize (Herr (PushField ("[" ^^ dec j ^^ "]") e)).
    pose proof (stable_LocalityParse entry (PushField ("[" ^^ dec j ^^ "]") e))
      as Hg.
    pose proof (LocalityParse_result _ _ Herr) as Hnone.
    destruct (LocalityParse entry _) as [r e1] eqn:Hp. simpl in *. subst r.
    rewrite (endpoints_step_None _ _ _ _ _ Hp) in Hs.
    injection Hs as _ <-.
    apply grows_size in Hg. unfold ValidationErrors.size in *. simpl in *. lia.
  - now apply IH with i entry.
Qed.

(** [EdsResourceParse_run], statement by statement. *)
Lemma EdsResourceParse_run_unfold cla e :
  EdsResourceParse_run cla e =
    let (ps, e1) :=
      endpoints_loop 0 (ClusterLoadAssignment_endpoints cla) []
        (PushField "endpoints" e) in
    let (_, e2) := empty_priorities_loop 0 ps e1 in
    let (cfg, e3) :=
      match ClusterLoadAssignment_policy cla with
      | Some policy =>
          ScopedField "policy"
            (drop_overloads_loop 0 (Policy_drop_overloads policy)
               empty_DropConfig) (PopField e2)
      | None => (empty_DropConfig, PopField e2)
      end in
    ({| priorities := ps; drop_config := cfg |}, e3).
Proof.
  unfold EdsResourceParse_run, bind, ScopedField, ret.
  destruct (endpoints_loop _ _ _ _) as [ps e1].
  destruct (empty_priorities_loop 0 ps e1) as [[] e2].
  destruct (ClusterLoadAssignment_policy cla); [|reflexivity].
  now destruct (drop_overloads_loop _ _ _ _).
Qed.

Lemma stable_policy (policy : option Policy) :
  stable
    match policy with
    | Some policy =>
        ScopedField "policy"
          (drop_overloads_loop 0 (Policy_drop_overloads policy)
             empty_DropConfig)
    | None => ret empty_DropConfig
    end.
Proof.
  destruct policy; stable. apply stable_drop_overloads_loop.
Qed.

Lemma stable_EdsResourceParse_run cla : stable (EdsResourceParse_run cla).
Proof.
  unfold EdsResourceParse_run. stable.
  - apply stable_endpoints_loop.
  - apply stable_empty_priorities_loop.
  - apply stable_drop_overloads_loop.
Qed.

(** *** Empty priorities *)

Lemma empty_priorities_loop_records (ps : list Priority) :
  forall i e j prio,
    wf e ->
    ps !! j = Some prio ->
    localities prio = ∅ ->
    In ("priority " ^^ dec (i + j) ^^ " empty")
       (at_path (current_path e) (snd (empty_priorities_loop i ps e))).
Proof.
  induction ps as [|p rest IH]; intros i e j prio Hwf Hj Hempty;
    [discriminate|].
  simpl. unfold bind.
  destruct j as [|j]; simpl in Hj.
  - injection Hj as ->.
    destruct (decide (localities prio = ∅)) as [_|Hne]; [|contradiction].
    unfold ErrorMonad.AddError at 1.
    apply (grows_at _ _ (stable_empty_priorities_loop rest (S i) _)).
    + now apply add_at_well_formed.
    + rewrite Nat.add_0_r. apply at_path_AddError.
  - replace (i + S j)%nat with (S i + j)%nat by lia.
    destruct (decide (localities p = ∅)).
    + unfold ErrorMonad.AddError at 1.
      rewrite <- (current_path_grows _ _ (grows_AddError
                    ("priority " ^^ dec i ^^ " empty") e)).
      apply IH with prio; auto.
      now apply add_at_well_formed.
    + unfold ret at 1. now apply IH with prio.
Qed.

(** *** Duplicate localities *)

Lemma endpoints_step_duplicate i entry ps e parsed e1 prio first :
  LocalityParse entry (PushField ("[" ^^ dec i ^^ "]") e) = (Some parsed, e1) ->
  ps !! priority parsed = Some prio ->
  localities prio !! name (locality parsed) = Some first ->
  endpoints_step i entry ps e =
    (ps, PopField (ValidationErrors.AddError
                     ("duplicate locality " ^^
                      AsHumanReadableString (name (locality parsed)) ^^
                      " found in priority " ^^ dec (priority parsed)) e1)).
Proof.
  intros Hp Hprio Hfirst.
  unfold endpoints_step, ScopedField, bind. rewrite Hp.
  pose proof (lookup_lt_Some _ _ _ Hprio) as Hlt.
  destruct (Nat.ltb_spec (length ps) (priority parsed + 1)) as [Hlt'|_];
    [lia|].
  rewrite Hprio, Hfirst. reflexivity.
Qed.

Lemma endpoints_step_insert i entry ps e parsed e1 :
  LocalityParse entry (PushField ("[" ^^ dec i ^^ "]") e) = (Some parsed, e1) ->
  (forall prio, ps !! priority parsed = Some prio ->
                localities prio !! name (locality parsed) = None) ->
  exists prio',
    fst (endpoints_step i entry ps e) !! priority parsed = Some prio' /\
    localities prio' !! name (locality parsed) = Some (locality parsed) /\
    snd (endpoints_step i entry ps e) = PopField e1.
Proof.
  intros Hp Hfresh.
  unfold endpoints_step, ScopedField, bind. rewrite Hp.
  set (p := priority parsed) in *.
  set (ps' := if (length ps <? p + 1)%nat then resize (p + 1) ps else ps).
  assert (Hlen : (p < length ps')%nat).
  { subst ps'. destruct (Nat.ltb_spec (length ps) (p + 1)); [|lia].
    unfold resize. rewrite length_app, length_take, length_replicate. lia. }
  assert (Hnone : match ps' !! p with
                  | Some prio => localities prio
                  | None => ∅
                  end !! name (locality parsed) = None).
  { destruct (ps' !! p) as [prio|] eqn:Hl; [|apply lookup_empty].
    subst ps'. destruct (Nat.ltb_spec (length ps) (p + 1)) as [Hlt|_].
    - unfold resize in Hl. rewrite take_ge in Hl by lia.
      rewrite lookup_app_r in Hl by lia.
      apply lookup_replicate in Hl as [-> _]. apply lookup_empty.
    - now apply Hfresh. }
  rewrite Hnone. simpl.
  eexists. split; [apply list_lookup_insert_eq; exact Hlen|].
  split; [|reflexivity]. simpl. apply lookup_insert_eq.
Qed.

(** A locality that is in the map of its priority stays there. *)
Lemma holds_resize ps m p n x :
  (length ps < m)%nat -> holds ps p n x -> holds (resize m ps) p n x.
Proof.
  intros Hm (prio & Hp & Hn). exists prio. split; [|exact Hn].
  unfold resize. rewrite take_ge by lia.
  rewrite lookup_app_l; [exact Hp|]. now apply lookup_lt_Some in Hp.
Qed.

Lemma endpoints_step_keeps i entry ps e p n x :
  holds ps p n x -> holds (fst (endpoints_step i entry ps e)) p n x.
Proof.
  intros Hh. unfold endpoints_step, ScopedField, bind.
  destruct (LocalityParse entry _) as [[parsed|] e1]; [|exact Hh].
  set (q := priority parsed).
  set (ps' := if (length ps <? q + 1)%nat then resize (q + 1) ps else ps).
  assert (Hh' : holds ps' p n x).
  { subst ps'. destruct (Nat.ltb_spec (length ps) (q + 1)); [|exact Hh].
    now apply holds_resize. }
  clearbody ps'. clear Hh.
  destruct (_ !! name (locality parsed)) eqn:Hfound; [exact Hh'|].
  simpl. destruct Hh' as (prio & Hp & Hn).
  destruct (decide (q = p)) as [->|Hqp].
  - rewrite Hp in Hfound |- *.
    eexists. split.
    + apply list_lookup_insert_eq. now apply lookup_lt_Some in Hp.
    + simpl. rewrite lookup_insert_ne; [exact Hn|]. congruence.
  - exists prio. split; [|exact Hn]. now rewrite list_lookup_insert_ne.
Qed.

Lemma endpoints_loop_keeps entries :
  forall i ps e p n x,
    holds ps p n x -> holds (fst (endpoints_loop i entries ps e)) p n x.
Proof.
  induction entries as [|entry rest IH]; intros i ps e p n x Hh; [exact Hh|].
  simpl. unfold bind.
  pose proof (endpoints_step_keeps i entry ps e p n x Hh) as Hstep.
  destruct (endpoints_step i entry ps e) as [ps' e']. now apply IH.
Qed.

(** ** The parser: skipped elements, rejected localities, duplicates,
    empty priorities *)

(** C5: a locality entry whose load-balancing weight is absent or 0 makes
    [LocalityParse] return no locality and leaves the accumulator as it
    was, so the step of [EdsResourceParse] for it changes neither the
    priorities nor the errors; an endpoint whose health status is neither
    UNKNOWN nor HEALTHY makes [ServerAddressParse] return no address and
    leaves the accumulator as it was, so the loop over the endpoints goes
    on as if the endpoint were not there. *)
Theorem skipped_elements_record_no_error :
  (forall entry e,
     LocalityLbEndpoints_load_balancing_weight entry = None \/
     LocalityLbEndpoints_load_balancing_weight entry = Some 0 ->
     LocalityParse entry e = (None, e)) /\
  (forall i entry ps e,
     LocalityLbEndpoints_load_balancing_weight entry = None \/
     LocalityLbEndpoints_load_balancing_weight entry = Some 0 ->
     endpoints_step i entry ps e = (ps, e)) /\
  (forall lb_endpoint e,
     LbEndpoint_health_status lb_endpoint <> envoy_config_core_v3_UNKNOWN ->
     LbEndpoint_health_status lb_endpoint <> envoy_config_core_v3_HEALTHY ->
     ServerAddressParse lb_endpoint e = (None, e)) /\
  (forall i lb_endpoint rest acc e,
     LbEndpoint_health_status lb_endpoint <> envoy_config_core_v3_UNKNOWN ->
     LbEndpoint_health_status lb_endpoint <> envoy_config_core_v3_HEALTHY ->
     lb_endpoints_loop i (lb_endpoint :: rest) acc e =
       lb_endpoints_loop (S i) rest acc e).
Proof.
  assert (Hskip : forall lb_endpoint e,
    LbEndpoint_health_status lb_endpoint <> envoy_config_core_v3_UNKNOWN ->
    LbEndpoint_health_status lb_endpoint <> envoy_config_core_v3_HEALTHY ->
    ServerAddressParse lb_endpoint e = (None, e)).
  { intros lb_endpoint e Hu Hh. unfold ServerAddressParse.
    apply Z.eqb_neq in Hu, Hh. now rewrite Hu, Hh. }
  repeat split.
  - apply LocalityParse_no_weight.
  - intros i entry ps e Hw.
    rewrite (endpoints_step_None i entry ps e _
               (LocalityParse_no_weight entry _ Hw)).
    now rewrite PopField_PushField.
  - exact Hskip.
  - intros i lb_endpoint rest acc e Hu Hh. simpl.
    unfold bind, ScopedField. rewrite (Hskip _ _ Hu Hh).
    now rewrite PopField_PushField.
Qed.

(** C10: if [LocalityParse] leaves more errors than it found, it returns
    no locality; the step of [EdsResourceParse] for such an entry leaves
    the priorities as they were and an accumulator that is not ok; and a
    resource one of whose entries makes [LocalityParse] record an error,
    from whatever accumulator, is rejected. *)
Theorem locality_with_error_is_dropped :
  (forall entry e,
     ValidationErrors.size (snd (LocalityParse entry e)) <>
       ValidationErrors.size e ->
     fst (LocalityParse entry e) = None) /\
  (forall i entry ps e,
     ValidationErrors.size
       (snd (LocalityParse entry (PushField ("[" ^^ dec i ^^ "]") e))) <>
       ValidationErrors.size (PushField ("[" ^^ dec i ^^ "]") e) ->
     fst (endpoints_step i entry ps e) = ps /\
     ok (snd (endpoints_step i entry ps e)) = false) /\
  (forall cla i entry e,
     ClusterLoadAssignment_endpoints cla !! i = Some entry ->
     ValidationErrors.size (snd (LocalityParse entry e)) <>
       ValidationErrors.size e ->
     exists st, EdsResourceParse cla = NotOk st).
Proof.
  split; [exact LocalityParse_result|split].
  - intros i entry ps e Herr.
    pose proof (LocalityParse_result _ _ Herr) as Hnone.
    pose proof (stable_LocalityParse entry (PushField ("[" ^^ dec i ^^ "]") e))
      as Hg.
    destruct (LocalityParse entry _) as [r e1] eqn:Hp. simpl in *. subst r.
    rewrite (endpoints_step_None _ _ _ _ _ Hp). simpl. split; [reflexivity|].
    apply size_not_ok. apply grows_size in Hg.
    unfold ValidationErrors.size in *. simpl in *. lia.
  - intros cla i entry e0 Hi Herr0.
    pose proof (LocalityParse_records entry e0 Herr0) as Herr.
    unfold EdsResourceParse.
    rewrite EdsResourceParse_run_unfold.
    pose proof (endpoints_loop_rejects _ 0%nat []
                  (PushField "endpoints" ValidationErrors.empty) i entry Hi Herr)
      as Hbad.
    destruct (endpoints_loop _ _ _ _) as [ps e1]. simpl in Hbad.
    pose proof (grows_ok _ _ (stable_empty_priorities_loop ps 0 e1) Hbad)
      as Hbad2.
    destruct (empty_priorities_loop 0 ps e1) as [[] e2]. simpl in Hbad2.
    pose proof (grows_ok _ _ (stable_policy (ClusterLoadAssignment_policy cla)
                                (PopField e2)) Hbad2) as Hbad3.
    destruct (ClusterLoadAssignment_policy cla) as [policy|].
    + destruct (ScopedField _ _ _) as [cfg e3]. simpl in Hbad3.
      rewrite Hbad3. simpl. eauto.
    + simpl in Hbad3. rewrite Hbad3. simpl. eauto.
Qed.


Lemma EdsResourceParse_run_empty_priority cla i prio :
  priorities (fst (EdsResourceParse_run cla ValidationErrors.empty)) !! i =
    Some prio ->
  localities prio = ∅ ->
  In ("priority " ^^ dec i ^^ " empty")
     (at_path "endpoints"
        (snd (EdsResourceParse_run cla ValidationErrors.empty))).
Proof.
  rewrite EdsResourceParse_run_unfold.
  pose proof (stable_endpoints_loop (ClusterLoadAssignment_endpoints cla)
                0 [] (PushField "endpoints" ValidationErrors.empty)) as G1.
  destruct (endpoints_loop _ _ _ _) as [ps e1]. simpl in G1.
  assert (Hwf1 : wf e1) by (apply (grows_wf _ _ G1), wf_empty).
  pose proof (current_path_grows _ _ G1) as Hpath. 
  change (current_path (PushField "endpoints" ValidationErrors.empty))
    with "endpoints" in Hpath.
  pose proof (stable_empty_priorities_loop ps 0 e1) as G2.
  pose proof (empty_priorities_loop_records ps 0 e1 i prio Hwf1) as Hrec.
  destruct (empty_priorities_loop 0 ps e1) as [[] e2]. simpl in G2, Hrec.
  assert (Hwf2 : wf (PopField e2)) by (apply (grows_wf _ _ G2), Hwf1).
  pose proof (stable_policy (ClusterLoadAssignment_policy cla) (PopField e2))
    as G3.
  rewrite Hpath in Hrec.
  destruct (ClusterLoadAssignment_policy cla) as [policy|].
  - destruct (ScopedField _ _ _) as [cfg e3]. simpl in *.
    intros Hi Hempty. apply (grows_at _ _ G3 Hwf2). now apply Hrec.
  - simpl in *. intros Hi Hempty. now apply Hrec.
Qed.

Lemma EdsResourceParse_cases cla :
  if ok (snd (EdsResourceParse_run cla ValidationErrors.empty))
  then EdsResourceParse cla =
         IsOk (fst (EdsResourceParse_run cla ValidationErrors.empty))
  else EdsResourceParse cla =
         NotOk (InvalidArgumentError
                  (status_message "errors parsing EDS resource"
                     (snd (EdsResourceParse_run cla ValidationErrors.empty)))).
Proof.
  unfold EdsResourceParse.
  destruct (EdsResourceParse_run cla ValidationErrors.empty) as [r errors].
  simpl. now destruct (ok errors).
Qed.

(** C7: every priority of a resource that [EdsResourceParse] returns has
    at least one locality; for every index [i] at which the priorities
    built from the entries have an empty locality map, the error
    "priority i empty" is recorded under the path "endpoints"; and when
    any error was recorded the result is a failure, of code
    [kInvalidArgument], and no resource. *)
Theorem empty_priority_is_rejected :
  (forall cla r,
     EdsResourceParse cla = IsOk r ->
     Forall (fun prio => localities prio <> ∅) (priorities r)) /\
  (forall cla i prio,
     priorities (fst (EdsResourceParse_run cla ValidationErrors.empty)) !! i =
       Some prio ->
     localities prio = ∅ ->
     In ("priority " ^^ dec i ^^ " empty")
        (at_path "endpoints"
           (snd (EdsResourceParse_run cla ValidationErrors.empty)))) /\
  (forall cla,
     ok (snd (EdsResourceParse_run cla ValidationErrors.empty)) = false ->
     exists st, EdsResourceParse cla = NotOk st /\
                code st = kInvalidArgument).
Proof.
  split; [|split].
  - intros cla r Hok. apply Forall_lookup. intros i prio Hi Hempty.
    pose proof (EdsResourceParse_cases cla) as Hc.
    destruct (ok _) eqn:Hk; rewrite Hc in Hok; [|discriminate].
    injection Hok as <-.
    pose proof (EdsResourceParse_run_empty_priority cla i prio Hi Hempty) as Hin.
    apply at_path_not_ok in Hin. congruence.
  - exact EdsResourceParse_run_empty_priority.
  - intros cla Hk. pose proof (EdsResourceParse_cases cla) as Hc.
    rewrite Hk in Hc. eexists. split; [exact Hc|reflexivity].
Qed.

(** C1 (amended): when the bytes decode to a message whose parse
    accumulates at least one validation error, the resource of the result
    of [Decode] is a failure with code [kInvalidArgument] and the message
    "errors parsing EDS resource: [field:<path1> error:<msgs1>; ...]",
    where the fields are the paths under which errors were accumulated,
    in strictly increasing lexicographic order, every field has at least
    one message, the messages of a field are joined by ", " and the
    fields by "; ". *)
Theorem eds_error_message_format serialized_resource cla :
  ClusterLoadAssignment_parse serialized_resource = Some cla ->
  ok (snd (EdsResourceParse_run cla ValidationErrors.empty)) = false ->
  let fields :=
    field_errors_ (snd (EdsResourceParse_run cla ValidationErrors.empty)) in
    fields <> [] /\
    StronglySorted Str.lt (map fst fields) /\
    Forall (fun f => snd f <> []) fields /\
    DecodeResult_resource (Decode serialized_resource) =
      NotOk {| code := kInvalidArgument;
               message :=
                 "errors parsing EDS resource: [" ^^
                 StrJoin
                   (map (fun f => "field:" ^^ fst f ^^ " error:" ^^
                                  StrJoin (snd f) ", ") fields) "; " ^^
                 "]" |}.
Proof.
  intros Hparse Hk. unfold Decode. rewrite Hparse. simpl.
  pose proof (EdsResourceParse_cases cla) as Hc. rewrite Hk in Hc.
  pose proof (grows_wf _ _ (stable_EdsResourceParse_run cla ValidationErrors.empty)
                wf_empty) as [Hsorted Hmsgs].
  split; [|split; [exact Hsorted|split; [exact Hmsgs|exact Hc]]].
  unfold ok in Hk. now destruct (field_errors_ _).
Qed.

(** ** The decode entry point *)

(** C4: for bytes that the wire decoder rejects, [Decode] returns no name
    and the failure [kInvalidArgument] with the message
    "Can't parse ClusterLoadAssignment resource."; for bytes that it
    accepts, the name of the result is the cluster name of the message,
    whatever [EdsResourceParse] then returns, and the resource of the
    result is what [EdsResourceParse] returns. *)
Theorem Decode_contract serialized_resource :
  (ClusterLoadAssignment_parse serialized_resource = None ->
   Decode serialized_resource =
     {| DecodeResult_name := None;
        DecodeResult_resource :=
          NotOk {| code := kInvalidArgument;
                   message := "Can't parse ClusterLoadAssignment resource." |}
     |}) /\
  (forall resource,
     ClusterLoadAssignment_parse serialized_resource = Some resource ->
     DecodeResult_name (Decode serialized_resource) =
       Some (ClusterLoadAssignment_cluster_name resource) /\
     DecodeResult_resource (Decode serialized_resource) =
       EdsResourceParse resource).
Proof.
  unfold Decode. split.
  - now intros ->.
  - now intros resource ->.
Qed.

End ParserFacts.

(** ** The drop percentage *)

Section DropFacts.
Import ValidationErrors StrFacts VEFacts Stable.

Lemma stable_category_check category : stable (category_check category).
Proof. unfold category_check. stable. Qed.

(** [DropParseAndAppend] on an entry with a percentage, by the
    denominator. *)
Lemma DropParseAndAppend_known category numerator denominator cfg e scaled :
  (denominator = envoy_type_v3_FractionalPercent_HUNDRED /\
   scaled = wrap32 (numerator * 10000)) \/
  (denominator = envoy_type_v3_FractionalPercent_TEN_THOUSAND /\
   scaled = wrap32 (numerator * 100)) \/
  (denominator = envoy_type_v3_FractionalPercent_MILLION /\
   scaled = numerator) ->
  DropParseAndAppend (drop_overload_of category numerator denominator) cfg e =
    (AddCategory category (Z.min scaled 1000000) cfg,
     snd (category_check category e)).
Proof.
  unfold DropParseAndAppend, category_check, bind, ScopedField, ret. simpl.
  intros [[-> ->]|[[-> ->]|[-> ->]]];
    destruct (String.eqb category EmptyString); simpl;
    now rewrite !PopField_PushField.
Qed.

Lemma DropParseAndAppend_unknown category numerator denominator cfg e :
  denominator <> envoy_type_v3_FractionalPercent_HUNDRED ->
  denominator <> envoy_type_v3_FractionalPercent_TEN_THOUSAND ->
  denominator <> envoy_type_v3_FractionalPercent_MILLION ->
  DropParseAndAppend (drop_overload_of category numerator denominator) cfg e =
    (AddCategory category (Z.min numerator 1000000) cfg,
     PopField (PopField
       (ValidationErrors.AddError "unknown denominator type"
          (PushField ".denominator"
             (PushField ".drop_percentage"
                (snd (category_check category e))))))).
Proof.
  intros H1 H2 H3.
  unfold DropParseAndAppend, category_check, bind, ScopedField, ret. simpl.
  apply Z.eqb_neq in H1, H2, H3. rewrite H1, H2, H3.
  now destruct (String.eqb category EmptyString).
Qed.

(** The enum constants are distinct. *)
Ltac enum_clash :=
  exfalso;
  unfold envoy_type_v3_FractionalPercent_HUNDRED,
         envoy_type_v3_FractionalPercent_TEN_THOUSAND,
         envoy_type_v3_FractionalPercent_MILLION in *;
  lia.

Lemma wrap32_small z : 0 <= z < 2 ^ 32 -> wrap32 z = z.
Proof. intros H. unfold wrap32. now apply Z.mod_small. Qed.

(** What [DropParseAndAppend] stores when the scaling does not wrap: for
    an entry with a drop percentage whose numerator is a [uint32_t], one
    category is appended, with the entry's name and a parts-per-million
    value between 0 and 1,000,000; with denominator HUNDRED the value is
    the smaller of numerator×10000 and 1,000,000 when numerator×10000 fits
    in a [uint32_t], with TEN_THOUSAND the smaller of numerator×100 and
    1,000,000 when numerator×100 fits, with MILLION the smaller of the
    numerator and 1,000,000; with any other denominator the error
    "unknown denominator type" is recorded under
    [.drop_percentage.denominator]. *)
Theorem drop_percentage_normalization category numerator denominator cfg e :
  0 <= numerator < 2 ^ 32 ->
  exists ppm,
    drop_category_list_
      (fst (DropParseAndAppend
              (drop_overload_of category numerator denominator) cfg e)) =
      drop_category_list_ cfg ++
      [{| DropCategory_name := category; parts_per_million := ppm |}] /\
    0 <= ppm <= 1000000 /\
    (denominator = envoy_type_v3_FractionalPercent_HUNDRED ->
     numerator * 10000 < 2 ^ 32 ->
     ppm = Z.min (numerator * 10000) 1000000) /\
    (denominator = envoy_type_v3_FractionalPercent_TEN_THOUSAND ->
     numerator * 100 < 2 ^ 32 ->
     ppm = Z.min (numerator * 100) 1000000) /\
    (denominator = envoy_type_v3_FractionalPercent_MILLION ->
     ppm = Z.min numerator 1000000) /\
    (denominator <> envoy_type_v3_FractionalPercent_HUNDRED ->
     denominator <> envoy_type_v3_FractionalPercent_TEN_THOUSAND ->
     denominator <> envoy_type_v3_FractionalPercent_MILLION ->
     ok (snd (DropParseAndAppend
                (drop_overload_of category numerator denominator) cfg e)) =
       false /\
     (wf e ->
      In "unknown denominator type"
         (at_path (current_path e ^^ ".drop_percentage.denominator")
            (snd (DropParseAndAppend
                    (drop_overload_of category numerator denominator)
                    cfg e))))).
Proof.
  intros Hn.
  assert (Hw : forall z, 0 <= wrap32 z < 2 ^ 32)
    by (intros z; apply Z.mod_pos_bound; lia).
  destruct (Z.eq_dec denominator envoy_type_v3_FractionalPercent_HUNDRED)
    as [Hd|H1];
    [|destruct (Z.eq_dec denominator
                  envoy_type_v3_FractionalPercent_TEN_THOUSAND) as [Hd|H2];
      [|destruct (Z.eq_dec denominator
                    envoy_type_v3_FractionalPercent_MILLION) as [Hd|H3]]].
  - rewrite (DropParseAndAppend_known _ _ _ _ _ (wrap32 (numerator * 10000)))
      by auto.
    eexists. split; [reflexivity|].
    pose proof (Hw (numerator * 10000)).
    split; [lia|].
    split; [intros _ Hfit; rewrite wrap32_small; lia|].
    split; [intros ? _; enum_clash|].
    split; [intros ?; enum_clash|contradiction].
  - rewrite (DropParseAndAppend_known _ _ _ _ _ (wrap32 (numerator * 100)))
      by auto.
    eexists. split; [reflexivity|].
    pose proof (Hw (numerator * 100)).
    split; [lia|].
    split; [intros ? _; enum_clash|].
    split; [intros _ Hfit; rewrite wrap32_small; lia|].
    split; [intros ?; enum_clash|contradiction].
  - rewrite (DropParseAndAppend_known _ _ _ _ _ numerator) by auto.
    eexists. split; [reflexivity|].
    split; [lia|].
    split; [intros ? _; enum_clash|].
    split; [intros ? _; enum_clash|].
    split; [reflexivity|contradiction].
  - rewrite DropParseAndAppend_unknown by assumption.
    eexists. split; [reflexivity|].
    split; [lia|].
    do 3 (split; [intros; contradiction|]).
    intros _ _ _. split; [apply ok_AddError|].
    intros Hwf. cbn [snd].
    { unfold at_path. cbn [PopField field_errors_].
      change (In "unknown denominator type"
                (at_path (current_path e ^^ ".drop_percentage.denominator")
                   (ValidationErrors.AddError "unknown denominator type"
                      (PushField ".denominator"
                         (PushField ".drop_percentage"
                            (category_check category e).2))))).
      pose proof (stable_category_check category e) as G.
      rewrite <- (current_path_grows _ _ G).
      change ".drop_percentage.denominator"
        with (".drop_percentage" ^^ ".denominator").
      rewrite <- append_assoc, <- !current_path_PushField.
      apply at_path_AddError. }
Qed.

(** C2: the numerator is scaled in a [uint32_t] and capped afterwards.
    For every entry with denominator HUNDRED the value stored is the
    smaller of (numerator×10000 modulo 2^32) and 1,000,000, and with
    TEN_THOUSAND the smaller of (numerator×100 modulo 2^32) and 1,000,000.
    For the numerator 429497 with HUNDRED that is 2704, where
    numerator×10000 capped at 1,000,000 is 1,000,000; for the numerator
    42949673 with TEN_THOUSAND it is 4, where numerator×100 capped at
    1,000,000 is 1,000,000.  Both numerators are values of a [uint32_t],
    and neither entry records an error. *)
Theorem drop_percentage_wraps_before_cap :
  (forall category numerator cfg e,
     drop_category_list_
       (fst (DropParseAndAppend
               (drop_overload_of category numerator
                  envoy_type_v3_FractionalPercent_HUNDRED) cfg e)) =
       drop_category_list_ cfg ++
       [{| DropCategory_name := category;
           parts_per_million :=
             Z.min ((numerator * 10000) mod 2 ^ 32) 1000000 |}]) /\
  (forall category numerator cfg e,
     drop_category_list_
       (fst (DropParseAndAppend
               (drop_overload_of category numerator
                  envoy_type_v3_FractionalPercent_TEN_THOUSAND) cfg e)) =
       drop_category_list_ cfg ++
       [{| DropCategory_name := category;
           parts_per_million :=
             Z.min ((numerator * 100) mod 2 ^ 32) 1000000 |}]) /\
  (0 <= 429497 < 2 ^ 32 /\
   DropParseAndAppend
     (drop_overload_of "lb" 429497 envoy_type_v3_FractionalPercent_HUNDRED)
     empty_DropConfig ValidationErrors.empty =
     ({| drop_category_list_ :=
           [{| DropCategory_name := "lb"; parts_per_million := 2704 |}];
         drop_all_ := false |},
      ValidationErrors.empty) /\
   Z.min (429497 * 10000) 1000000 = 1000000) /\
  (0 <= 42949673 < 2 ^ 32 /\
   DropParseAndAppend
     (drop_overload_of "lb" 42949673
        envoy_type_v3_FractionalPercent_TEN_THOUSAND)
     empty_DropConfig ValidationErrors.empty =
     ({| drop_category_list_ :=
           [{| DropCategory_name := "lb"; parts_per_million := 4 |}];
         drop_all_ := false |},
      ValidationErrors.empty) /\
   Z.min (42949673 * 100) 1000000 = 1000000).
Proof.
  split; [|split; [|split]].
  - intros category numerator cfg e.
    now rewrite (DropParseAndAppend_known _ _ _ _ _
                   (wrap32 (numerator * 10000))) by auto.
  - intros category numerator cfg e.
    now rewrite (DropParseAndAppend_known _ _ _ _ _
                   (wrap32 (numerator * 100))) by auto.
  - split; [lia|]. split; reflexivity.
  - split; [lia|]. split; reflexivity.
Qed.

(** C8: numerator [N] with denominator HUNDRED and numerator [100 * N]
    with denominator TEN_THOUSAND give the same result, errors included,
    and the value stored is at most 1,000,000. *)
Theorem hundred_equals_scaled_ten_thousand category N cfg e :
  0 <= N -> 100 * N < 2 ^ 32 ->
  DropParseAndAppend
    (drop_overload_of category N envoy_type_v3_FractionalPercent_HUNDRED)
    cfg e =
  DropParseAndAppend
    (drop_overload_of category (100 * N)
       envoy_type_v3_FractionalPercent_TEN_THOUSAND) cfg e /\
  exists ppm,
    drop_category_list_
      (fst (DropParseAndAppend
              (drop_overload_of category N
                 envoy_type_v3_FractionalPercent_HUNDRED) cfg e)) =
      drop_category_list_ cfg ++
      [{| DropCategory_name := category; parts_per_million := ppm |}] /\
    ppm <= 1000000.
Proof.
  intros H0 Hfit.
  rewrite (DropParseAndAppend_known _ _ _ _ _ (wrap32 (N * 10000))) by auto.
  rewrite (DropParseAndAppend_known _ (100 * N) _ _ _ (wrap32 (N * 10000))).
  - split; [reflexivity|]. eexists. split; [reflexivity|lia].
  - right. left. split; [reflexivity|]. f_equal. lia.
Qed.

End DropFacts.

(** ** The drop decision *)

Section ShouldDropFacts.

Variable rand : nat -> Z.

Lemma random_range k : 0 <= random rand k < 1000000.
Proof. unfold random. apply Z.mod_pos_bound. lia. Qed.

Lemma ShouldDrop_loop_spec l :
  forall calls,
    match ShouldDrop_loop rand l calls with
    | (Some category_name, calls') =>
        exists i c,
          l !! i = Some c /\
          category_name = DropCategory_name c /\
          random rand (calls + i) < parts_per_million c /\
          (forall j c', (j < i)%nat -> l !! j = Some c' ->
                        parts_per_million c' <= random rand (calls + j)) /\
          calls' = (calls + i + 1)%nat
    | (None, calls') =>
        (forall j c', l !! j = Some c' ->
                      parts_per_million c' <= random rand (calls + j)) /\
        calls' = (calls + length l)%nat
    end.
Proof.
  induction l as [|c rest IH]; intros calls; simpl.
  - split; [discriminate|lia].
  - destruct (Z.ltb_spec (random rand calls) (parts_per_million c)) as [Hlt|Hge].
    + exists 0%nat, c. rewrite Nat.add_0_r.
      split; [reflexivity|]. split; [reflexivity|]. split; [exact Hlt|].
      split; [intros j c' Hj; lia|lia].
    + specialize (IH (S calls)).
      destruct (ShouldDrop_loop rand rest (S calls)) as [[category_name|] calls'].
      * destruct IH as (i & c0 & Hi & Hname & Hdraw & Hbefore & Hcalls).
        exists (S i), c0.
        replace (calls + S i)%nat with (S calls + i)%nat by lia.
        split; [exact Hi|]. split; [exact Hname|]. split; [exact Hdraw|].
        split; [|lia].
        intros [|j] c' Hj Hc'; simpl in Hc'.
        -- injection Hc' as <-. now rewrite Nat.add_0_r.
        -- replace (calls + S j)%nat with (S calls + j)%nat by lia.
           apply Hbefore; [lia|exact Hc'].
      * destruct IH as [Hall Hcalls]. split; [|lia].
        intros [|j] c' Hc'; simpl in Hc'.
        -- injection Hc' as <-. now rewrite Nat.add_0_r.
        -- replace (calls + S j)%nat with (S calls + j)%nat by lia.
           now apply Hall.
Qed.

(** C3 (amended): the draw of the call of [rand()] numbered [k] is
    [static_cast<uint32_t>(rand()) % 1000000] of what that call returns,
    written out here on [rand] itself, and lies in [0, 1000000).
    [ShouldDrop] takes the categories in stored order, the category at
    position [i] against the draw of the [i]-th call of [rand()] of this
    invocation; it returns the name of the first category whose
    parts-per-million value is above its own draw, having called [rand()]
    once for each category up to that one, and returns no drop, having
    called [rand()] once for each category, when no category is above its
    draw.  Nothing is said of the distribution of the draws: it is that
    of [rand()] modulo 1,000,000. *)
Theorem ShouldDrop_first_match_on_rand d calls :
  let draw := fun i : nat => (rand (calls + i) mod 2 ^ 32) mod 1000000 in
  (forall i, 0 <= draw i < 1000000) /\
  match ShouldDrop rand d calls with
  | (Some category_name, calls') =>
      exists i c,
        drop_category_list_ d !! i = Some c /\
        category_name = DropCategory_name c /\
        draw i < parts_per_million c /\
        (forall j c', (j < i)%nat -> drop_category_list_ d !! j = Some c' ->
                      parts_per_million c' <= draw j) /\
        calls' = (calls + i + 1)%nat
  | (None, calls') =>
      (forall j c', drop_category_list_ d !! j = Some c' ->
                    parts_per_million c' <= draw j) /\
      calls' = (calls + length (drop_category_list_ d))%nat
  end.
Proof.
  intros draw. split.
  - intros i. apply (random_range (calls + i)).
  - exact (ShouldDrop_loop_spec (drop_category_list_ d) calls).
Qed.

End ShouldDropFacts.

(** ** Durations *)

Section DurationFacts.
Import ValidationErrors StrFacts VEFacts Stable.

Lemma stable_ParseDuration d : stable (ParseDuration d).
Proof. unfold ParseDuration. stable. Qed.

(** C9: a duration whose seconds and nanos are both in range records no
    error and yields [seconds * 1000 + nanos / 1000000] milliseconds; a
    duration whose seconds and nanos are both out of range records two
    errors in the one call, one under [seconds] and one under [nanos],
    which from an empty accumulator are the two fields of the status. *)
Theorem ParseDuration_ranges d :
  (forall e,
     seconds_in_range d -> nanos_in_range d ->
     ParseDuration d e =
       (Duration_seconds d * 1000 + Duration_nanos d / 1000000, e)) /\
  (forall e,
     ~ seconds_in_range d -> ~ nanos_in_range d ->
     ValidationErrors.size (snd (ParseDuration d e)) =
       S (S (ValidationErrors.size e)) /\
     (wf e ->
      In "value must be in the range [0, 315576000000]"
         (at_path (current_path e ^^ "seconds") (snd (ParseDuration d e))) /\
      In "value must be in the range [0, 999999999]"
         (at_path (current_path e ^^ "nanos") (snd (ParseDuration d e))))) /\
  (~ seconds_in_range d -> ~ nanos_in_range d ->
   field_errors_ (snd (ParseDuration d ValidationErrors.empty)) =
     [("nanos", ["value must be in the range [0, 999999999]"]);
      ("seconds", ["value must be in the range [0, 315576000000]"])]).
Proof.
  unfold seconds_in_range, nanos_in_range.
  assert (Hin : forall s lo hi : Z,
            lo <= s <= hi -> (s <? lo) || (hi <? s) = false).
  { intros s lo hi H.
    destruct (Z.ltb_spec s lo), (Z.ltb_spec hi s); simpl; auto; lia. }
  assert (Hout : forall s lo hi : Z,
            ~ lo <= s <= hi -> (s <? lo) || (hi <? s) = true).
  { intros s lo hi H.
    destruct (Z.ltb_spec s lo), (Z.ltb_spec hi s); simpl; auto; lia. }
  split; [|split].
  - intros e Hs Hn. unfold ParseDuration, bind, ret.
    rewrite (Hin _ _ _ Hs), (Hin _ _ _ Hn).
    now rewrite Z.quot_div_nonneg by lia.
  - intros e Hs Hn. unfold ParseDuration, bind, ret, ScopedField.
    rewrite (Hout _ _ _ Hs), (Hout _ _ _ Hn).
    unfold ErrorMonad.AddError. cbn [snd].
    split.
    + now rewrite size_PopField, size_AddError, size_PushField,
        size_PopField, size_AddError, size_PushField.
    + intros Hwf.
      set (e1 := PopField (ValidationErrors.AddError
                   "value must be in the range [0, 315576000000]"
                   (PushField "seconds" e))).
      assert (G1 : grows e e1) by (apply grows_scope with "seconds", grows_AddError).
      assert (Hwf1 : wf e1) by (now apply (grows_wf _ _ G1)).
      split.
      * apply (grows_at e1).
        -- apply grows_scope with "nanos", grows_AddError.
        -- exact Hwf1.
        -- rewrite <- current_path_PushField. apply at_path_AddError.
      * rewrite <- (current_path_grows _ _ G1), <- current_path_PushField.
        apply at_path_AddError.
  - intros Hs Hn. unfold ParseDuration, bind, ret, ScopedField.
    rewrite (Hout _ _ _ Hs), (Hout _ _ _ Hn). reflexivity.
Qed.

End DurationFacts.

(** ** Errors recorded below the scope *)

Module RecordFacts.
Import ValidationErrors StrFacts VEFacts.

Lemma PopField_AddError_PushField ext msg e :
  PopField (ValidationErrors.AddError msg (PushField ext e)) =
    record_at ext msg e.
Proof.
  unfold record_at, PopField, ValidationErrors.AddError.
  rewrite current_path_PushField. cbn [fields_ field_errors_ PushField].
  now rewrite removelast_last.
Qed.

Lemma PopField_record_at_PushField ext rel msg e :
  PopField (record_at rel msg (PushField ext e)) =
    record_at (ext ^^ rel) msg e.
Proof.
  unfold record_at, PopField.
  rewrite current_path_PushField, append_assoc.
  cbn [fields_ field_errors_ PushField].
  now rewrite removelast_last.
Qed.

Lemma size_record_at rel msg e : size (record_at rel msg e) = S (size e).
Proof.
  unfold record_at, size. cbn [field_errors_].
  generalize (current_path e ^^ rel). intros path.
  induction (field_errors_ e) as [|[p msgs] rest IH]; simpl; [reflexivity|].
  destruct (String.compare path p); simpl.
  - rewrite length_app. simpl. lia.
  - reflexivity.
  - rewrite IH. lia.
Qed.

Lemma ok_record_at rel msg e : ok (record_at rel msg e) = false.
Proof.
  unfold ok, record_at. cbn [field_errors_].
  pose proof (add_at_not_nil (current_path e ^^ rel) msg (field_errors_ e)).
  now destruct (add_at _ _ _).
Qed.

Lemma at_path_record_at rel msg e :
  In msg (at_path (current_path e ^^ rel) (record_at rel msg e)).
Proof. apply errors_at_add_at_new. Qed.

Lemma size_weight_checked ep e : (size e <= size (weight_checked ep e))%nat.
Proof.
  unfold weight_checked.
  destruct (LbEndpoint_load_balancing_weight ep) as [w|]; [|lia].
  destruct (w =? 0); [rewrite size_record_at|]; lia.
Qed.

Lemma weight_checked_quiet ep e :
  size (weight_checked ep e) = size e ->
  endpoint_weight ep <> 0 /\ weight_checked ep e = e.
Proof.
  unfold weight_checked, endpoint_weight.
  destruct (LbEndpoint_load_balancing_weight ep) as [w|];
    [|intros _; split; [discriminate|reflexivity]].
  destruct (Z.eqb_spec w 0) as [->|Hw].
  - rewrite size_record_at. lia.
  - now intros _.
Qed.

Lemma weight_checked_nonzero ep e :
  endpoint_weight ep <> 0 -> weight_checked ep e = e.
Proof.
  unfold weight_checked, endpoint_weight.
  destruct (LbEndpoint_load_balancing_weight ep) as [w|]; [|reflexivity].
  intros Hw. now destruct (Z.eqb_spec w 0).
Qed.

End RecordFacts.

(** ** [ServerAddressParse], branch by branch *)

Section ServerAddressFacts.
Import ValidationErrors StrFacts VEFacts RecordFacts.

Context {collaborators : Collaborators}.

(** What [ServerAddressParse] does with an endpoint that it does not
    skip, as one expression over the fields of the endpoint. *)
Lemma ServerAddressParse_unfold lb_endpoint e :
  healthy lb_endpoint = true ->
  ServerAddressParse lb_endpoint e =
    let e1 := weight_checked lb_endpoint e in
    let weight := endpoint_weight lb_endpoint in
    match LbEndpoint_endpoint lb_endpoint with
    | None => (None, record_at ".endpoint" "field not present" e1)
    | Some endpoint =>
      match Endpoint_address endpoint with
      | None => (None, record_at ".endpoint.address" "field not present" e1)
      | Some address =>
        match Address_socket_address address with
        | None =>
            (None, record_at ".endpoint.address.socket_address"
                     "field not present" e1)
        | Some socket_address =>
            if negb (Z.shiftr (SocketAddress_port_value socket_address) 16
                     =? 0)
            then (None,
                  record_at ".endpoint.address.socket_address.port_value"
                    "invalid port" e1)
            else
              match StringToSockaddr (SocketAddress_address socket_address)
                      (SocketAddress_port_value socket_address) with
              | NotOk st =>
                  (Some {| ServerAddress_address := None;
                           ServerAddressWeightAttribute := weight |},
                   record_at ".endpoint.address.socket_address"
                     (message st) e1)
              | IsOk addr =>
                  (Some {| ServerAddress_address := Some addr;
                           ServerAddressWeightAttribute := weight |}, e1)
              end
        end
      end
    end.
Proof.
  intros Hh. unfold healthy in Hh.
  unfold ServerAddressParse.
  destruct (LbEndpoint_health_status lb_endpoint =? envoy_config_core_v3_UNKNOWN),
    (LbEndpoint_health_status lb_endpoint =? envoy_config_core_v3_HEALTHY);
    try discriminate Hh; cbn [negb andb].
  all: unfold bind, ScopedField, ret, ErrorMonad.AddError,
         weight_checked, endpoint_weight.
  all: destruct (LbEndpoint_load_balancing_weight lb_endpoint) as [w|];
    [destruct (w =? 0)|].
  all: destruct (LbEndpoint_endpoint lb_endpoint) as [endpoint|];
    [destruct (Endpoint_address endpoint) as [address|];
     [destruct (Address_socket_address address) as [socket_address|];
      [destruct (negb (Z.shiftr (SocketAddress_port_value socket_address) 16
                       =? 0));
       [|destruct (StringToSockaddr _ _)]|]|]|].
  all: cbv beta iota zeta;
    rewrite ?PopField_PushField, ?PopField_AddError_PushField,
      ?PopField_record_at_PushField, ?PopField_PushField;
    reflexivity.
Qed.

Lemma ServerAddressParse_unhealthy lb_endpoint e :
  healthy lb_endpoint = false -> ServerAddressParse lb_endpoint e = (None, e).
Proof.
  unfold healthy, ServerAddressParse. intros Hh.
  destruct (_ =? envoy_config_core_v3_UNKNOWN),
    (_ =? envoy_config_core_v3_HEALTHY); try discriminate Hh.
  reflexivity.
Qed.

Lemma port_fits (port : Z) : 0 <= port < 65536 -> Z.shiftr port 16 = 0.
Proof.
  intros H. rewrite Z.shiftr_div_pow2 by lia. apply Z.div_small. lia.
Qed.

Lemma port_too_large (port : Z) : 65536 <= port -> Z.shiftr port 16 <> 0.
Proof.
  intros H. rewrite Z.shiftr_div_pow2 by lia.
  assert (1 <= port / 2 ^ 16); [|lia].
  apply Z.div_le_lower_bound; lia.
Qed.

Lemma grows_record_at rel msg e : grows e (record_at rel msg e).
Proof.
  split.
  - reflexivity.
  - rewrite size_record_at. lia.
  - intros _. apply ok_record_at.
  - intros Hwf. now apply add_at_well_formed.
  - intros Hwf q x Hx. now apply errors_at_add_at_old.
Qed.

(** X1: an endpoint that is not skipped, has its whole address chain, a
    port below 65536 and an address that [StringToSockaddr] accepts is
    returned with that address and with its weight (1 without a weight);
    nothing is recorded, except for a weight of 0. *)
Theorem ServerAddressParse_resolved lb_endpoint e socket_address addr :
  healthy lb_endpoint = true ->
  endpoint_socket_address lb_endpoint = Some socket_address ->
  0 <= SocketAddress_port_value socket_address < 65536 ->
  StringToSockaddr (SocketAddress_address socket_address)
    (SocketAddress_port_value socket_address) = IsOk addr ->
  ServerAddressParse lb_endpoint e =
    (Some {| ServerAddress_address := Some addr;
             ServerAddressWeightAttribute := endpoint_weight lb_endpoint |},
     weight_checked lb_endpoint e) /\
  (endpoint_weight lb_endpoint <> 0 -> weight_checked lb_endpoint e = e).
Proof.
  intros Hh Hsock Hport Haddr.
  split; [|apply weight_checked_nonzero].
  rewrite (ServerAddressParse_unfold _ _ Hh). cbv zeta.
  unfold endpoint_socket_address in Hsock.
  destruct (LbEndpoint_endpoint lb_endpoint) as [en|]; [|discriminate].
  destruct (Endpoint_address en) as [ad|]; [|discriminate].
  rewrite Hsock, (port_fits _ Hport), Haddr. reflexivity.
Qed.

(** X2: an endpoint that is not skipped and whose weight is 0 has the
    error "must be greater than 0" recorded under
    [.load_balancing_weight], whatever its address is. *)
Theorem ServerAddressParse_zero_weight lb_endpoint e :
  healthy lb_endpoint = true ->
  LbEndpoint_load_balancing_weight lb_endpoint = Some 0 ->
  wf e ->
  In "must be greater than 0"
     (at_path (current_path e ^^ ".load_balancing_weight")
        (snd (ServerAddressParse lb_endpoint e))) /\
  (size e < size (snd (ServerAddressParse lb_endpoint e)))%nat.
Proof.
  intros Hh Hw Hwf.
  rewrite (ServerAddressParse_unfold _ _ Hh). cbv zeta.
  unfold weight_checked. rewrite Hw. cbn [Z.eqb].
  set (e1 := record_at ".load_balancing_weight" "must be greater than 0" e).
  assert (H1 : In "must be greater than 0"
                 (at_path (current_path e ^^ ".load_balancing_weight") e1))
    by apply at_path_record_at.
  assert (Hwf1 : wf e1) by (apply (grows_wf _ _ (grows_record_at _ _ e)), Hwf).
  assert (Hs1 : size e1 = S (size e)) by apply size_record_at.
  assert (Hrec : forall rel msg,
            In "must be greater than 0"
               (at_path (current_path e ^^ ".load_balancing_weight")
                  (record_at rel msg e1)) /\
            (size e < size (record_at rel msg e1))%nat).
  { intros rel msg. split.
    - now apply (grows_at _ _ (grows_record_at rel msg e1)).
    - rewrite size_record_at. lia. }
  destruct (LbEndpoint_endpoint lb_endpoint) as [en|]; [|apply Hrec].
  destruct (Endpoint_address en) as [ad|]; [|apply Hrec].
  destruct (Address_socket_address ad) as [sock|]; [|apply Hrec].
  destruct (negb _); [apply Hrec|].
  destruct (StringToSockaddr _ _); [|apply Hrec].
  cbn [snd]. split; [exact H1|lia].
Qed.

(** X3: an endpoint that is not skipped and lacks [endpoint], or its
    [address], or its [socket_address], is not returned, and "field not
    present" is recorded under the path of the first message that is
    missing. *)
Theorem ServerAddressParse_missing_field lb_endpoint e :
  healthy lb_endpoint = true ->
  (LbEndpoint_endpoint lb_endpoint = None ->
   ServerAddressParse lb_endpoint e =
     (None, record_at ".endpoint" "field not present"
              (weight_checked lb_endpoint e))) /\
  (forall endpoint,
     LbEndpoint_endpoint lb_endpoint = Some endpoint ->
     Endpoint_address endpoint = None ->
     ServerAddressParse lb_endpoint e =
       (None, record_at ".endpoint.address" "field not present"
                (weight_checked lb_endpoint e))) /\
  (forall endpoint address,
     LbEndpoint_endpoint lb_endpoint = Some endpoint ->
     Endpoint_address endpoint = Some address ->
     Address_socket_address address = None ->
     ServerAddressParse lb_endpoint e =
       (None, record_at ".endpoint.address.socket_address"
                "field not present" (weight_checked lb_endpoint e))).
Proof.
  intros Hh. rewrite (ServerAddressParse_unfold _ _ Hh). cbv zeta.
  split; [|split].
  - now intros ->.
  - now intros endpoint -> ->.
  - now intros endpoint address -> -> ->.
Qed.

(** X4: an endpoint that is not skipped and whose port is 65536 or more
    is not returned, "invalid port" is recorded under
    [.endpoint.address.socket_address.port_value], and the answer of
    [StringToSockaddr] plays no part. *)
Theorem ServerAddressParse_invalid_port lb_endpoint e socket_address :
  healthy lb_endpoint = true ->
  endpoint_socket_address lb_endpoint = Some socket_address ->
  65536 <= SocketAddress_port_value socket_address ->
  ServerAddressParse lb_endpoint e =
    (None, record_at ".endpoint.address.socket_address.port_value"
             "invalid port" (weight_checked lb_endpoint e)).
Proof.
  intros Hh Hsock Hport.
  rewrite (ServerAddressParse_unfold _ _ Hh). cbv zeta.
  unfold endpoint_socket_address in Hsock.
  destruct (LbEndpoint_endpoint lb_endpoint) as [en|]; [|discriminate].
  destruct (Endpoint_address en) as [ad|]; [|discriminate].
  rewrite Hsock.
  apply port_too_large, Z.eqb_neq in Hport. now rewrite Hport.
Qed.

(** X5: when [StringToSockaddr] refuses the address of an endpoint that is
    not skipped, the message of its status is recorded under
    [.endpoint.address.socket_address], and the endpoint is returned all
    the same, without an address. *)
Theorem ServerAddressParse_unresolved lb_endpoint e socket_address st :
  healthy lb_endpoint = true ->
  endpoint_socket_address lb_endpoint = Some socket_address ->
  0 <= SocketAddress_port_value socket_address < 65536 ->
  StringToSockaddr (SocketAddress_address socket_address)
    (SocketAddress_port_value socket_address) = NotOk st ->
  ServerAddressParse lb_endpoint e =
    (Some {| ServerAddress_address := None;
             ServerAddressWeightAttribute := endpoint_weight lb_endpoint |},
     record_at ".endpoint.address.socket_address" (message st)
       (weight_checked lb_endpoint e)).
Proof.
  intros Hh Hsock Hport Haddr.
  rewrite (ServerAddressParse_unfold _ _ Hh). cbv zeta.
  unfold endpoint_socket_address in Hsock.
  destruct (LbEndpoint_endpoint lb_endpoint) as [en|]; [|discriminate].
  destruct (Endpoint_address en) as [ad|]; [|discriminate].
  rewrite Hsock, (port_fits _ Hport), Haddr. reflexivity.
Qed.

(** When [ServerAddressParse] leaves as many errors as it found, the
    accumulator is unchanged, and the endpoint was skipped or is returned
    with its resolved address and its weight. *)
Lemma ServerAddressParse_quiet lb_endpoint e :
  size (snd (ServerAddressParse lb_endpoint e)) = size e ->
  snd (ServerAddressParse lb_endpoint e) = e /\
  ((healthy lb_endpoint = false /\
    fst (ServerAddressParse lb_endpoint e) = None) \/
   (healthy lb_endpoint = true /\
    exists sa, resolves lb_endpoint sa /\
               fst (ServerAddressParse lb_endpoint e) = Some sa)).
Proof.
  destruct (healthy lb_endpoint) eqn:Hh.
  2:{ rewrite (ServerAddressParse_unhealthy _ _ Hh). intros _.
      split; [reflexivity|]. now left. }
  rewrite (ServerAddressParse_unfold _ _ Hh). cbv zeta.
  unfold resolves, endpoint_socket_address.
  pose proof (size_weight_checked lb_endpoint e) as Hle.
  destruct (LbEndpoint_endpoint lb_endpoint) as [en|];
    [|cbn [snd]; rewrite size_record_at; lia].
  destruct (Endpoint_address en) as [ad|];
    [|cbn [snd]; rewrite size_record_at; lia].
  destruct (Address_socket_address ad) as [sock|];
    [|cbn [snd]; rewrite size_record_at; lia].
  destruct (Z.eqb_spec (Z.shiftr (SocketAddress_port_value sock) 16) 0)
    as [Hport|_]; cbn [negb];
    [|cbn [snd]; rewrite size_record_at; lia].
  destruct (StringToSockaddr _ _) as [addr|st] eqn:Haddr;
    [|cbn [snd]; rewrite size_record_at; lia].
  cbn [fst snd]. intros Hsize.
  destruct (weight_checked_quiet _ _ Hsize) as [Hw He].
  split; [exact He|]. right. split; [reflexivity|].
  eexists. split; [|reflexivity].
  exists sock, addr. auto.
Qed.

Lemma ServerAddressParse_accepts lb_endpoint e sa :
  healthy lb_endpoint = true -> resolves lb_endpoint sa ->
  ServerAddressParse lb_endpoint e = (Some sa, e).
Proof.
  intros Hh (sock & addr & Hsock & Hport & Haddr & Hw & ->).
  rewrite (ServerAddressParse_unfold _ _ Hh). cbv zeta.
  unfold endpoint_socket_address in Hsock.
  destruct (LbEndpoint_endpoint lb_endpoint) as [en|]; [|discriminate].
  destruct (Endpoint_address en) as [ad|]; [|discriminate].
  rewrite Hsock, Hport, Haddr. cbn [Z.eqb negb].
  now rewrite (weight_checked_nonzero _ _ Hw).
Qed.

(** X6: [ServerAddressParse] returns an endpoint without recording an
    error exactly when the endpoint is not skipped and resolves: then the
    accumulator is unchanged and the endpoint returned is the resolved
    one. *)
Theorem ServerAddressParse_returns_resolved lb_endpoint e sa :
  (healthy lb_endpoint = true /\ resolves lb_endpoint sa) <->
  ServerAddressParse lb_endpoint e = (Some sa, e).
Proof.
  split.
  - intros [Hh Hres]. now apply ServerAddressParse_accepts.
  - intros Heq.
    destruct (ServerAddressParse_quiet lb_endpoint e) as [_ [[_ Hn]|[Hh Hr]]].
    + now rewrite Heq.
    + rewrite Heq in Hn. discriminate.
    + destruct Hr as (sa' & Hres & Hsa). rewrite Heq in Hsa.
      injection Hsa as <-. auto.
Qed.

End ServerAddressFacts.

(** ** [LocalityParse], from the entry to the locality *)

Section LocalityFacts.
Import ValidationErrors StrFacts VEFacts RecordFacts Stable.

Context {collaborators : Collaborators}.

Lemma resolves_functional lb_endpoint sa sa' :
  resolves lb_endpoint sa -> resolves lb_endpoint sa' -> sa = sa'.
Proof.
  intros (s1 & a1 & Hs1 & _ & Ha1 & _ & ->) (s2 & a2 & Hs2 & _ & Ha2 & _ & ->).
  rewrite Hs1 in Hs2. injection Hs2 as <-.
  rewrite Ha1 in Ha2. now injection Ha2 as <-.
Qed.

Lemma Forall2_resolves_functional l :
  forall eps eps',
    Forall2 resolves l eps -> Forall2 resolves l eps' -> eps = eps'.
Proof.
  induction l as [|ep l IH]; intros eps eps' H1 H2.
  - apply Forall2_nil_inv_l in H1, H2. congruence.
  - apply Forall2_cons_inv_l in H1 as (sa & r & Hsa & Hr & ->).
    apply Forall2_cons_inv_l in H2 as (sa' & r' & Hsa' & Hr' & ->).
    f_equal; [now apply resolves_functional with ep|now apply IH].
Qed.

(** The step of the loop over the endpoints, when it records nothing. *)
Lemma lb_endpoints_loop_quiet lb_endpoints :
  forall i acc e,
    size (snd (lb_endpoints_loop i lb_endpoints acc e)) = size e ->
    snd (lb_endpoints_loop i lb_endpoints acc e) = e /\
    exists new,
      fst (lb_endpoints_loop i lb_endpoints acc e) = acc ++ new /\
      Forall2 resolves (List.filter healthy lb_endpoints) new.
Proof.
  induction lb_endpoints as [|ep rest IH]; intros i acc e Hsize.
  - split; [reflexivity|]. exists []. split; [|constructor].
    simpl. now rewrite app_nil_r.
  - simpl in Hsize |- *. unfold bind, ScopedField in Hsize |- *.
    set (e0 := PushField (".lb_endpoints[" ^^ dec i ^^ "]") e) in *.
    pose proof (stable_ServerAddressParse ep e0) as G0.
    pose proof (ServerAddressParse_quiet ep e0) as Hq.
    destruct (ServerAddressParse ep e0) as [r e0'].
    cbn [fst snd] in G0, Hq.
    set (acc' := match r with Some a => acc ++ [a] | None => acc end) in *.
    pose proof (stable_lb_endpoints_loop rest (S i) acc' (PopField e0')) as G1.
    apply grows_size in G0, G1.
    rewrite size_PopField in G1. change (size e0) with (size e) in G0.
    assert (Hs0 : size e0' = size e0) by (change (size e0) with (size e); lia).
    destruct (Hq Hs0) as [He0 Hr]. subst e0'.
    unfold e0 in Hsize |- *. rewrite PopField_PushField in Hsize |- *.
    destruct (IH (S i) acc' e Hsize) as [He (new & Hfst & Hall)].
    split; [exact He|].
    destruct Hr as [[Hh ->]|[Hh (sa & Hres & ->)]]; rewrite Hh.
    + exists new. now split.
    + exists (sa :: new). subst acc'. split; [|now constructor].
      now rewrite Hfst, <- app_assoc.
Qed.

(** The loop over endpoints that are skipped or resolve. *)
Lemma lb_endpoints_loop_resolves lb_endpoints :
  forall i acc e,
    Forall (fun ep => healthy ep = true -> exists sa, resolves ep sa)
      lb_endpoints ->
    exists new,
      lb_endpoints_loop i lb_endpoints acc e = (acc ++ new, e) /\
      Forall2 resolves (List.filter healthy lb_endpoints) new.
Proof.
  induction lb_endpoints as [|ep rest IH]; intros i acc e Hall.
  - exists []. split; [|constructor]. simpl. now rewrite app_nil_r.
  - apply Forall_cons_1 in Hall as [Hep Hrest].
    simpl. unfold bind, ScopedField.
    destruct (healthy ep) eqn:Hh.
    + destruct (Hep eq_refl) as (sa & Hres).
      rewrite (ServerAddressParse_accepts ep _ sa Hh Hres).
      rewrite PopField_PushField.
      destruct (IH (S i) (acc ++ [sa]) e Hrest) as (new & Heq & Hnew).
      exists (sa :: new). split; [|now constructor].
      now rewrite Heq, <- app_assoc.
    + rewrite (ServerAddressParse_unhealthy _ _ Hh), PopField_PushField.
      apply IH, Hrest.
Qed.

(** What a locality returned by [LocalityParse] is. *)
Lemma LocalityParse_Some_inv entry e parsed e' :
  LocalityParse entry e = (Some parsed, e') ->
  e' = e /\ describes entry parsed.
Proof.
  unfold LocalityParse, bind, ErrorMonad.size, ret, describes.
  destruct (LocalityLbEndpoints_load_balancing_weight entry) as [w|];
    [|discriminate].
  destruct (Z.eqb_spec w 0) as [|Hw]; [discriminate|].
  destruct (LocalityLbEndpoints_locality entry) as [l|];
    [|unfold ScopedField, ErrorMonad.AddError; discriminate].
  pose proof (lb_endpoints_loop_quiet
                (LocalityLbEndpoints_lb_endpoints entry) 0 [] e) as Hq.
  destruct (lb_endpoints_loop _ _ _ e) as [eps e1]. cbn [fst snd] in Hq.
  destruct (Nat.eqb_spec (size e) (size e1)) as [Heq|]; [|discriminate].
  cbn [negb]. intros [= <- <-].
  destruct (Hq (eq_sym Heq)) as [He (new & Hnew & Hall)].
  split; [exact He|]. exists w, l. cbn.
  rewrite Hnew. repeat (split; [auto; reflexivity|]). exact Hall.
Qed.

(** An entry that has what a locality needs is returned. *)
Lemma LocalityParse_complete entry e w l :
  LocalityLbEndpoints_load_balancing_weight entry = Some w ->
  w <> 0 ->
  LocalityLbEndpoints_locality entry = Some l ->
  Forall (fun ep => healthy ep = true -> exists sa, resolves ep sa)
    (LocalityLbEndpoints_lb_endpoints entry) ->
  exists eps,
    LocalityParse entry e =
      (Some {| priority := Z.to_nat (LocalityLbEndpoints_priority entry);
               locality := {| name := locality_name l;
                              lb_weight := w;
                              endpoints := eps |} |}, e) /\
    Forall2 resolves
      (List.filter healthy (LocalityLbEndpoints_lb_endpoints entry)) eps.
Proof.
  intros Hw Hnz Hl Hall.
  destruct (lb_endpoints_loop_resolves _ 0%nat [] e Hall)
    as (eps & Hloop & Heps).
  exists eps. split; [|exact Heps].
  unfold LocalityParse, bind, ErrorMonad.size, ret.
  rewrite Hw, Hl. apply Z.eqb_neq in Hnz. rewrite Hnz, Hloop.
  now rewrite Nat.eqb_refl.
Qed.

(** X7: [LocalityParse] returns a locality exactly when the entry has a
    weight other than 0 and a locality and every endpoint that is not
    skipped resolves; it has then recorded nothing, the accumulator being
    the one it was given, and the locality has the priority, the name and
    the weight of the entry and, in their order, its resolved
    endpoints. *)
Theorem LocalityParse_returns_described entry e parsed e' :
  LocalityParse entry e = (Some parsed, e') <->
  e' = e /\ describes entry parsed.
Proof.
  split; [apply LocalityParse_Some_inv|].
  intros [-> (w & l & Hw & Hnz & Hl & Hp & Hn & Hlw & Heps)].
  assert (Hall : Forall (fun ep => healthy ep = true ->
                                   exists sa, resolves ep sa)
                   (LocalityLbEndpoints_lb_endpoints entry)).
  { clear -Heps. revert Heps.
    generalize (endpoints (locality parsed)).
    induction (LocalityLbEndpoints_lb_endpoints entry) as [|ep rest IH];
      intros eps Heps; constructor.
    - intros Hh. simpl in Heps. rewrite Hh in Heps.
      apply Forall2_cons_inv_l in Heps as (sa & ? & ? & _). eauto.
    - simpl in Heps. destruct (healthy ep).
      + apply Forall2_cons_inv_l in Heps as (sa & r & _ & Hr & _).
        now apply IH with r.
      + now apply IH with eps. }
  destruct (LocalityParse_complete entry e w l Hw Hnz Hl Hall)
    as (eps & Heq & Heps').
  rewrite Heq. do 2 f_equal.
  destruct parsed as [p [n lw es]]. cbn in *. subst.
  do 2 f_equal. now apply Forall2_resolves_functional with
    (List.filter healthy (LocalityLbEndpoints_lb_endpoints entry)).
Qed.

Lemma LocalityParse_missing_locality_eq entry e w :
  LocalityLbEndpoints_load_balancing_weight entry = Some w ->
  w <> 0 ->
  LocalityLbEndpoints_locality entry = None ->
  LocalityParse entry e = (None, record_at ".locality" "field not present" e).
Proof.
  intros Hw Hnz Hl.
  unfold LocalityParse, bind, ErrorMonad.size, ret, ScopedField,
    ErrorMonad.AddError.
  rewrite Hw, Hl. apply Z.eqb_neq in Hnz. rewrite Hnz.
  cbv beta iota zeta. now rewrite PopField_AddError_PushField.
Qed.

(** X8: an entry with a weight other than 0 and no locality is not
    returned, and "field not present" is recorded under [.locality]; its
    endpoints are not looked at. *)
Theorem LocalityParse_missing_locality entry e w lb_endpoints :
  LocalityLbEndpoints_load_balancing_weight entry = Some w ->
  w <> 0 ->
  LocalityLbEndpoints_locality entry = None ->
  LocalityParse entry e =
    (None, record_at ".locality" "field not present" e) /\
  LocalityParse
    {| LocalityLbEndpoints_load_balancing_weight :=
         LocalityLbEndpoints_load_balancing_weight entry;
       LocalityLbEndpoints_locality := LocalityLbEndpoints_locality entry;
       LocalityLbEndpoints_lb_endpoints := lb_endpoints;
       LocalityLbEndpoints_priority := LocalityLbEndpoints_priority entry |}
    e = LocalityParse entry e.
Proof.
  intros Hw Hnz Hl.
  rewrite (LocalityParse_missing_locality_eq entry e w Hw Hnz Hl).
  split; [reflexivity|].
  now apply LocalityParse_missing_locality_eq with w.
Qed.

End LocalityFacts.

(** ** The drop categories of a resource *)

Section DropListFacts.
Import ValidationErrors StrFacts VEFacts RecordFacts Stable.

Lemma category_check_run category e :
  category_check category e =
    (tt, if String.eqb category EmptyString
         then record_at ".category" "empty drop category name" e
         else e).
Proof.
  unfold category_check, ScopedField, ErrorMonad.AddError, ret.
  destruct (String.eqb category EmptyString); [|reflexivity].
  now rewrite PopField_AddError_PushField.
Qed.

Lemma DropParseAndAppend_no_percentage category cfg e :
  DropParseAndAppend
    {| DropOverload_category := category;
       DropOverload_drop_percentage := None |} cfg e =
    (cfg, record_at ".drop_percentage" "field not present"
            (snd (category_check category e))).
Proof.
  rewrite category_check_run.
  unfold DropParseAndAppend, bind, ScopedField, ret, ErrorMonad.AddError.
  cbn [DropOverload_category DropOverload_drop_percentage snd].
  destruct (String.eqb category EmptyString); cbv beta iota zeta;
    now rewrite ?PopField_AddError_PushField.
Qed.

(** X9: a drop-overload entry without a percentage adds no category, and
    "field not present" is recorded under [.drop_percentage]. *)
Theorem DropParseAndAppend_missing_percentage d cfg e :
  DropOverload_drop_percentage d = None ->
  fst (DropParseAndAppend d cfg e) = cfg /\
  snd (DropParseAndAppend d cfg e) =
    record_at ".drop_percentage" "field not present"
      (snd (category_check (DropOverload_category d) e)) /\
  ok (snd (DropParseAndAppend d cfg e)) = false.
Proof.
  destruct d as [category percentage]. cbn. intros ->.
  rewrite DropParseAndAppend_no_percentage. cbn [fst snd].
  split; [reflexivity|]. split; [reflexivity|]. apply ok_record_at.
Qed.

(** X10: a drop-overload entry without a name has "empty drop category
    name" recorded under [.category], and its category is appended all
    the same, under the empty name, when the entry has a percentage with
    a known denominator. *)
Theorem DropParseAndAppend_empty_category numerator denominator cfg e :
  known_denominator
    {| FractionalPercent_numerator := numerator;
       FractionalPercent_denominator := denominator |} ->
  exists ppm,
    DropParseAndAppend (drop_overload_of EmptyString numerator denominator)
      cfg e =
      (AddCategory EmptyString ppm cfg,
       record_at ".category" "empty drop category name" e) /\
    ppm <= 1000000.
Proof.
  unfold known_denominator. cbn [FractionalPercent_denominator]. intros Hk.
  assert (Hrun : snd (category_check EmptyString e) =
                 record_at ".category" "empty drop category name" e)
    by now rewrite category_check_run.
  destruct Hk as [->|[->| ->]].
  - exists (Z.min (wrap32 (numerator * 10000)) 1000000). split; [|lia].
    rewrite (DropParseAndAppend_known _ _ _ _ _ (wrap32 (numerator * 10000)))
      by auto.
    now rewrite Hrun.
  - exists (Z.min (wrap32 (numerator * 100)) 1000000). split; [|lia].
    rewrite (DropParseAndAppend_known _ _ _ _ _ (wrap32 (numerator * 100)))
      by auto.
    now rewrite Hrun.
  - exists (Z.min numerator 1000000). split; [|lia].
    rewrite (DropParseAndAppend_known _ _ _ _ _ numerator) by auto.
    now rewrite Hrun.
Qed.

(** [DropParseAndAppend] when the accumulator it leaves is ok. *)
Lemma DropParseAndAppend_ok d cfg e :
  ok (snd (DropParseAndAppend d cfg e)) = true ->
  snd (DropParseAndAppend d cfg e) = e /\
  exists c,
    drops_as d c /\
    drop_category_list_ (fst (DropParseAndAppend d cfg e)) =
      drop_category_list_ cfg ++ [c].
Proof.
  destruct d as [category [[numerator denominator]|]].
  2:{ rewrite DropParseAndAppend_no_percentage. cbn [snd].
      now rewrite ok_record_at. }
  fold (drop_overload_of category numerator denominator).
  assert (Hcat : forall (x : unit) (e0 : ValidationErrors.t),
            e0 = snd (category_check category e) ->
            ok e0 = true ->
            e0 = e /\ category <> EmptyString).
  { intros x e0 ->. rewrite category_check_run. cbn [snd].
    destruct (String.eqb_spec category EmptyString) as [->|Hne].
    - now rewrite ok_record_at.
    - now intros _. }
  assert (Hdone : forall scaled,
            DropParseAndAppend (drop_overload_of category numerator denominator)
              cfg e =
              (AddCategory category (Z.min scaled 1000000) cfg,
               snd (category_check category e)) ->
            known_denominator
              {| FractionalPercent_numerator := numerator;
                 FractionalPercent_denominator := denominator |} ->
            ok (snd (DropParseAndAppend
                       (drop_overload_of category numerator denominator)
                       cfg e)) = true ->
            snd (DropParseAndAppend
                   (drop_overload_of category numerator denominator) cfg e) =
              e /\
            exists c,
              drops_as (drop_overload_of category numerator denominator) c /\
              drop_category_list_
                (fst (DropParseAndAppend
                        (drop_overload_of category numerator denominator)
                        cfg e)) = drop_category_list_ cfg ++ [c]).
  { intros scaled -> Hk Hok. cbn [fst snd] in *.
    destruct (Hcat tt _ eq_refl Hok) as [He Hne]. split; [exact He|].
    eexists. split; [|reflexivity].
    unfold drops_as. cbn. repeat split; auto; [eauto|lia]. }
  destruct (Z.eq_dec denominator envoy_type_v3_FractionalPercent_HUNDRED)
    as [Hd|H1];
    [|destruct (Z.eq_dec denominator
                  envoy_type_v3_FractionalPercent_TEN_THOUSAND) as [Hd|H2];
      [|destruct (Z.eq_dec denominator
                    envoy_type_v3_FractionalPercent_MILLION) as [Hd|H3]]].
  - apply (Hdone (wrap32 (numerator * 10000)));
      [apply DropParseAndAppend_known|left]; auto.
  - apply (Hdone (wrap32 (numerator * 100)));
      [apply DropParseAndAppend_known|right; left]; auto.
  - apply (Hdone numerator);
      [apply DropParseAndAppend_known|right; right]; auto.
  - rewrite DropParseAndAppend_unknown by assumption. cbn [snd].
    change (ok (PopField (PopField ?x))) with (ok x).
    now rewrite ok_AddError.
Qed.

Lemma drop_overloads_loop_ok ds :
  forall i cfg e,
    ok (snd (drop_overloads_loop i ds cfg e)) = true ->
    snd (drop_overloads_loop i ds cfg e) = e /\
    exists new,
      Forall2 drops_as ds new /\
      drop_category_list_ (fst (drop_overloads_loop i ds cfg e)) =
        drop_category_list_ cfg ++ new.
Proof.
  induction ds as [|d rest IH]; intros i cfg e Hok.
  - split; [reflexivity|]. exists []. split; [constructor|].
    simpl. now rewrite app_nil_r.
  - simpl in Hok |- *. unfold bind, ScopedField in Hok |- *.
    set (e0 := PushField (".drop_overloads[" ^^ dec i ^^ "]") e) in *.
    pose proof (DropParseAndAppend_ok d cfg e0) as Hd.
    destruct (DropParseAndAppend d cfg e0) as [cfg1 e0'].
    cbn [fst snd] in Hd.
    pose proof (stable_drop_overloads_loop rest (S i) cfg1 (PopField e0'))
      as G.
    assert (Hok0 : ok e0' = true).
    { destruct (ok e0') eqn:Hk; [reflexivity|].
      now rewrite (grows_ok _ _ G Hk) in Hok. }
    destruct (Hd Hok0) as [He0 (c & Hc & Hlist)]. subst e0'.
    unfold e0 in Hok |- *. rewrite PopField_PushField in Hok |- *.
    destruct (IH (S i) cfg1 e Hok) as [He (new & Hnew & Hl)].
    split; [exact He|]. exists (c :: new). split; [now constructor|].
    now rewrite Hl, Hlist, <- app_assoc.
Qed.

End DropListFacts.

(** ** What an accepted resource holds *)

Section ResourceFacts.
Import ValidationErrors StrFacts VEFacts RecordFacts Stable.

Context {collaborators : Collaborators}.

Lemma ok_size e : ok e = true -> size e = 0%nat.
Proof. unfold ok, size. now destruct (field_errors_ e). Qed.

Lemma grows_ok_back e e' : grows e e' -> ok e' = true -> ok e = true.
Proof.
  intros G Hok. destruct (ok e) eqn:Hk; [reflexivity|].
  now rewrite (grows_ok _ _ G Hk) in Hok.
Qed.

(** Without a locality to return, an entry with a weight has recorded an
    error. *)
Lemma LocalityParse_None_records entry e e0 w :
  LocalityParse entry e = (None, e0) ->
  LocalityLbEndpoints_load_balancing_weight entry = Some w ->
  w <> 0 ->
  size e0 <> size e.
Proof.
  intros Heq Hw Hnz.
  destruct (LocalityLbEndpoints_locality entry) as [l|] eqn:Hl.
  - revert Heq. unfold LocalityParse, bind, ErrorMonad.size, ret.
    rewrite Hw, Hl. apply Z.eqb_neq in Hnz. rewrite Hnz.
    destruct (lb_endpoints_loop _ _ _ e) as [eps e1].
    destruct (Nat.eqb_spec (size e) (size e1)) as [|Hne]; [discriminate|].
    cbn [negb]. intros [= <-]. congruence.
  - rewrite (LocalityParse_missing_locality_eq entry e w Hw Hnz Hl) in Heq.
    injection Heq as <-. rewrite size_record_at. lia.
Qed.

(** One step of the loop over the entries, when the accumulator it
    leaves is ok. *)
Lemma endpoints_step_ok i entry ps e :
  ok (snd (endpoints_step i entry ps e)) = true ->
  snd (endpoints_step i entry ps e) = e /\
  forall w,
    LocalityLbEndpoints_load_balancing_weight entry = Some w ->
    w <> 0 ->
    exists parsed,
      describes entry parsed /\
      holds (fst (endpoints_step i entry ps e)) (priority parsed)
        (name (locality parsed)) (locality parsed) /\
      forall x, ~ holds ps (priority parsed) (name (locality parsed)) x.
Proof.
  set (e0 := PushField ("[" ^^ dec i ^^ "]") e).
  pose proof (stable_LocalityParse entry e0) as G.
  destruct (LocalityParse entry e0) as [[parsed|] e1] eqn:Hp;
    cbn [snd] in G.
  - destruct (LocalityParse_Some_inv _ _ _ _ Hp) as [-> Hdesc].
    destruct (ps !! priority parsed) as [prio|] eqn:Hprio;
      [destruct (localities prio !! name (locality parsed)) as [first|]
         eqn:Hfirst|].
    + rewrite (endpoints_step_duplicate _ _ _ _ _ _ _ _ Hp Hprio Hfirst).
      cbn [snd]. change (ok (PopField ?x)) with (ok x).
      now rewrite ok_AddError.
    + assert (Hfresh : forall prio0, ps !! priority parsed = Some prio0 ->
                localities prio0 !! name (locality parsed) = None)
        by (intros prio0 H0; rewrite Hprio in H0; now injection H0 as <-).
      destruct (endpoints_step_insert _ _ _ _ _ _ Hp Hfresh)
        as (prio' & H1 & H2 & H3).
      intros _. split; [rewrite H3; apply PopField_PushField|].
      intros w _ _. exists parsed. split; [exact Hdesc|].
      split; [now exists prio'|].
      intros x (prio0 & H0 & Hx). rewrite Hprio in H0.
      injection H0 as <-. congruence.
    + assert (Hfresh : forall prio0, ps !! priority parsed = Some prio0 ->
                localities prio0 !! name (locality parsed) = None)
        by (intros prio0 H0; rewrite Hprio in H0; discriminate).
      destruct (endpoints_step_insert _ _ _ _ _ _ Hp Hfresh)
        as (prio' & H1 & H2 & H3).
      intros _. split; [rewrite H3; apply PopField_PushField|].
      intros w _ _. exists parsed. split; [exact Hdesc|].
      split; [now exists prio'|].
      intros x (prio0 & H0 & Hx). rewrite Hprio in H0. discriminate.
  - rewrite (endpoints_step_None _ _ _ _ _ Hp). cbn [fst snd].
    change (ok (PopField e1)) with (ok e1). intros Hok.
    pose proof (ok_size _ Hok) as Hs1.
    pose proof (grows_size _ _ G) as Hle.
    assert (Hs0 : size e1 = size e0) by lia.
    destruct (LocalityLbEndpoints_load_balancing_weight entry) as [w|] eqn:Hw.
    + destruct (Z.eq_dec w 0) as [->|Hnz].
      * rewrite (LocalityParse_no_weight entry e0 (or_intror Hw)) in Hp.
        injection Hp as <-. split; [apply PopField_PushField|].
        intros w' [= <-] Hne. contradiction.
      * now destruct (LocalityParse_None_records _ _ _ _ Hp Hw Hnz).
    + rewrite (LocalityParse_no_weight entry e0 (or_introl Hw)) in Hp.
      injection Hp as <-. split; [apply PopField_PushField|].
      intros w' Hw'. discriminate.
Qed.

Lemma endpoints_loop_ok entries :
  forall i ps e,
    ok (snd (endpoints_loop i entries ps e)) = true ->
    snd (endpoints_loop i entries ps e) = e /\
    forall j entry w,
      entries !! j = Some entry ->
      LocalityLbEndpoints_load_balancing_weight entry = Some w ->
      w <> 0 ->
      exists parsed,
        describes entry parsed /\
        holds (fst (endpoints_loop i entries ps e)) (priority parsed)
          (name (locality parsed)) (locality parsed) /\
        forall x, ~ holds ps (priority parsed) (name (locality parsed)) x.
Proof.
  induction entries as [|en rest IH]; intros i ps e Hok.
  - split; [reflexivity|]. intros j entry w Hj. discriminate.
  - simpl in Hok |- *. unfold bind in Hok |- *.
    pose proof (endpoints_step_ok i en ps e) as Hstep.
    pose proof (endpoints_step_keeps i en ps e) as Hkeep.
    destruct (endpoints_step i en ps e) as [ps1 e1]. cbn [fst snd] in *.
    pose proof (stable_endpoints_loop rest (S i) ps1 e1) as G.
    destruct (Hstep (grows_ok_back _ _ G Hok)) as [-> Hhere].
    destruct (IH (S i) ps1 e Hok) as [He Hrest].
    split; [exact He|].
    intros [|j] entry w Hj Hw Hnz; simpl in Hj.
    + injection Hj as ->.
      destruct (Hhere w Hw Hnz) as (parsed & Hd & Hh & Hf).
      exists parsed. split; [exact Hd|]. split; [|exact Hf].
      now apply endpoints_loop_keeps.
    + destruct (Hrest j entry w Hj Hw Hnz) as (parsed & Hd & Hh & Hf).
      exists parsed. split; [exact Hd|]. split; [exact Hh|].
      intros x Hx. apply (Hf x). now apply Hkeep.
Qed.

Lemma describes_key entry parsed l :
  describes entry parsed ->
  LocalityLbEndpoints_locality entry = Some l ->
  priority parsed = Z.to_nat (LocalityLbEndpoints_priority entry) /\
  name (locality parsed) = locality_name l.
Proof.
  intros (w & l' & _ & _ & Hl & Hp & Hn & _) Hl'.
  rewrite Hl in Hl'. injection Hl' as ->. auto.
Qed.

Lemma endpoints_loop_distinct entries :
  forall i ps e,
    ok (snd (endpoints_loop i entries ps e)) = true ->
    forall j k ej ek wj wk lj lk,
      (j < k)%nat ->
      entries !! j = Some ej -> entries !! k = Some ek ->
      LocalityLbEndpoints_load_balancing_weight ej = Some wj -> wj <> 0 ->
      LocalityLbEndpoints_load_balancing_weight ek = Some wk -> wk <> 0 ->
      LocalityLbEndpoints_locality ej = Some lj ->
      LocalityLbEndpoints_locality ek = Some lk ->
      ~ (Z.to_nat (LocalityLbEndpoints_priority ej) =
           Z.to_nat (LocalityLbEndpoints_priority ek) /\
         locality_name lj = locality_name lk).
Proof.
  induction entries as [|en rest IH]; intros i ps e Hok j k ej ek wj wk lj lk
    Hjk Hj Hk Hwj Hnj Hwk Hnk Hlj Hlk; [discriminate|].
  simpl in Hok. unfold bind in Hok.
  pose proof (endpoints_step_ok i en ps e) as Hstep.
  destruct (endpoints_step i en ps e) as [ps1 e1]. cbn [fst snd] in *.
  pose proof (stable_endpoints_loop rest (S i) ps1 e1) as G.
  destruct (Hstep (grows_ok_back _ _ G Hok)) as [-> Hhere].
  destruct k as [|k]; [lia|]. simpl in Hk.
  destruct j as [|j]; simpl in Hj.
  - injection Hj as ->.
    destruct (Hhere wj Hwj Hnj) as (pj & Hdj & Hhj & _).
    destruct (endpoints_loop_ok rest (S i) ps1 e Hok) as [_ Hrest].
    destruct (Hrest k ek wk Hk Hwk Hnk) as (pk & Hdk & _ & Hfresh).
    destruct (describes_key _ _ _ Hdj Hlj) as [Hpj Hnj'].
    destruct (describes_key _ _ _ Hdk Hlk) as [Hpk Hnk'].
    intros [Hp Hn]. apply (Hfresh (locality pj)).
    now rewrite Hpk, Hnk', <- Hp, <- Hn, <- Hpj, <- Hnj'.
  - apply (IH (S i) ps1 e Hok j k ej ek wj wk lj lk); auto. lia.
Qed.

Lemma endpoints_step_well_keyed i entry ps e :
  well_keyed ps -> well_keyed (fst (endpoints_step i entry ps e)).
Proof.
  intros Hwk. unfold endpoints_step, ScopedField, bind.
  destruct (LocalityParse entry _) as [[parsed|] e1] eqn:Hp; [|exact Hwk].
  pose proof (LocalityParse_weight _ _ _ _ Hp) as Hnz.
  set (q := priority parsed).
  set (ps' := if (length ps <? q + 1)%nat then resize (q + 1) ps else ps).
  assert (Hwk' : well_keyed ps').
  { subst ps'. destruct (Nat.ltb_spec (length ps) (q + 1)); [|exact Hwk].
    intros p prio n x Hprio Hx. unfold resize in Hprio.
    rewrite take_ge in Hprio by lia.
    apply lookup_app_Some in Hprio as [Hprio|[_ Hprio]].
    - now apply (Hwk p prio).
    - apply lookup_replicate in Hprio as [-> _].
      unfold empty_Priority in Hx. cbn [localities] in Hx.
      rewrite lookup_empty in Hx. discriminate. }
  clearbody ps'. clear Hwk.
  destruct (_ !! name (locality parsed)) eqn:Hfound; [exact Hwk'|].
  cbn [fst ret]. intros p prio n x Hprio Hx.
  destruct (decide (q = p)) as [->|Hqp].
  - destruct (ps' !! p) as [prio0|] eqn:Hp0.
    + rewrite list_lookup_insert_eq in Hprio
        by now apply lookup_lt_Some in Hp0.
      injection Hprio as <-. cbn in Hx.
      destruct (decide (name (locality parsed) = n)) as [<-|Hn].
      * rewrite lookup_insert_eq in Hx. injection Hx as <-. auto.
      * rewrite lookup_insert_ne in Hx by exact Hn.
        now apply (Hwk' p prio0).
    + rewrite list_insert_ge in Hprio by now apply lookup_ge_None.
      congruence.
  - rewrite list_lookup_insert_ne in Hprio by exact Hqp.
    now apply (Hwk' p prio).
Qed.

Lemma endpoints_loop_well_keyed entries :
  forall i ps e,
    well_keyed ps -> well_keyed (fst (endpoints_loop i entries ps e)).
Proof.
  induction entries as [|en rest IH]; intros i ps e Hwk; [exact Hwk|].
  simpl. unfold bind.
  pose proof (endpoints_step_well_keyed i en ps e Hwk) as Hstep.
  destruct (endpoints_step i en ps e) as [ps1 e1]. now apply IH.
Qed.

(** The accumulator after the loop over the entries of an accepted
    resource, and what that loop built. *)
Lemma EdsResourceParse_IsOk_inv cla r :
  EdsResourceParse cla = IsOk r ->
  ok (snd (endpoints_loop 0 (ClusterLoadAssignment_endpoints cla) []
             (PushField "endpoints" ValidationErrors.empty))) = true /\
  priorities r =
    fst (endpoints_loop 0 (ClusterLoadAssignment_endpoints cla) []
           (PushField "endpoints" ValidationErrors.empty)) /\
  Forall2 drops_as (policy_drop_overloads cla)
    (drop_category_list_ (drop_config r)).
Proof.
  intros Hr. pose proof (EdsResourceParse_cases cla) as Hc.
  destruct (ok _) eqn:Hok; rewrite Hc in Hr; [|discriminate].
  injection Hr as <-. revert Hok.
  rewrite EdsResourceParse_run_unfold.
  destruct (endpoints_loop _ _ _ _) as [ps e1].
  pose proof (stable_empty_priorities_loop ps 0 e1) as G2.
  destruct (empty_priorities_loop 0 ps e1) as [[] e2]. cbn [snd] in G2.
  unfold policy_drop_overloads.
  destruct (ClusterLoadAssignment_policy cla) as [policy|].
  - unfold ScopedField.
    pose proof (drop_overloads_loop_ok (Policy_drop_overloads policy) 0
                  empty_DropConfig (PushField "policy" (PopField e2))) as Hd.
    destruct (drop_overloads_loop _ _ _ _) as [cfg e3]. cbn [fst snd] in *.
    change (ok (PopField e3)) with (ok e3). intros Hok.
    destruct (Hd Hok) as [-> (new & Hnew & Hlist)].
    change (ok (PushField "policy" (PopField e2))) with (ok e2) in Hok.
    split; [exact (grows_ok_back _ _ G2 Hok)|].
    split; [reflexivity|]. cbn [drop_config]. now rewrite Hlist.
  - cbn [fst snd]. change (ok (PopField e2)) with (ok e2). intros Hok.
    split; [exact (grows_ok_back _ _ G2 Hok)|].
    split; [reflexivity|]. constructor.
Qed.

(** X11: an accepted resource has one drop category for each
    drop-overload entry of the message, in the order of the entries;
    every entry has a name, which is the name of its category, a
    percentage and a known denominator, and every category is at most
    1,000,000 parts per million. *)
Theorem accepted_drop_categories cla r :
  EdsResourceParse cla = IsOk r ->
  Forall2 drops_as (policy_drop_overloads cla)
    (drop_category_list_ (drop_config r)).
Proof. intros Hr. now apply EdsResourceParse_IsOk_inv in Hr. Qed.

(** X12: in an accepted resource, every entry of the message with a
    weight other than 0 is stored: it has a locality, its endpoints that
    are not skipped all resolve, and the priority of the entry holds,
    under the name of the entry, the locality with the weight of the
    entry and those endpoints in their order. *)
Theorem accepted_localities_are_stored cla r j entry w :
  EdsResourceParse cla = IsOk r ->
  ClusterLoadAssignment_endpoints cla !! j = Some entry ->
  LocalityLbEndpoints_load_balancing_weight entry = Some w ->
  w <> 0 ->
  exists parsed,
    describes entry parsed /\
    holds (priorities r) (priority parsed) (name (locality parsed))
      (locality parsed).
Proof.
  intros Hr Hj Hw Hnz.
  apply EdsResourceParse_IsOk_inv in Hr as (Hok & -> & _).
  destruct (endpoints_loop_ok _ _ _ _ Hok) as [_ Hall].
  destruct (Hall j entry w Hj Hw Hnz) as (parsed & Hd & Hh & _).
  now exists parsed.
Qed.

(** X13: in an accepted resource, no two entries of the message with a
    weight other than 0 have the same priority and the same locality
    name. *)
Theorem accepted_localities_are_distinct cla r j k ej ek wj wk lj lk :
  EdsResourceParse cla = IsOk r ->
  (j < k)%nat ->
  ClusterLoadAssignment_endpoints cla !! j = Some ej ->
  ClusterLoadAssignment_endpoints cla !! k = Some ek ->
  LocalityLbEndpoints_load_balancing_weight ej = Some wj -> wj <> 0 ->
  LocalityLbEndpoints_load_balancing_weight ek = Some wk -> wk <> 0 ->
  LocalityLbEndpoints_locality ej = Some lj ->
  LocalityLbEndpoints_locality ek = Some lk ->
  ~ (Z.to_nat (LocalityLbEndpoints_priority ej) =
       Z.to_nat (LocalityLbEndpoints_priority ek) /\
     locality_name lj = locality_name lk).
Proof.
  intros Hr. apply EdsResourceParse_IsOk_inv in Hr as (Hok & _ & _).
  now apply (endpoints_loop_distinct _ _ _ _ Hok).
Qed.

(** X14: in the resource that [EdsResourceParse] builds, accepted or
    not, every locality is stored under its own name and has a weight
    other than 0. *)
Theorem stored_localities_are_well_keyed cla e :
  well_keyed (priorities (fst (EdsResourceParse_run cla e))).
Proof.
  rewrite EdsResourceParse_run_unfold.
  pose proof (endpoints_loop_well_keyed (ClusterLoadAssignment_endpoints cla)
                0 [] (PushField "endpoints" e)) as Hwk.
  destruct (endpoints_loop _ _ _ _) as [ps e1].
  destruct (empty_priorities_loop 0 ps e1) as [[] e2].
  destruct (match ClusterLoadAssignment_policy cla with
            | Some policy => _
            | None => _
            end) as [cfg e3].
  cbn [fst priorities]. apply Hwk.
  intros p prio n x Hp. discriminate.
Qed.

(** X15: the loop that rejects empty priorities records one error for
    each priority without a locality, and none for the others. *)
Theorem empty_priorities_are_counted (ps : list Priority) i e :
  size (snd (empty_priorities_loop i ps e)) =
    (size e +
     length (List.filter (fun prio => bool_decide (localities prio = ∅)) ps))%nat.
Proof.
  revert i e. induction ps as [|prio rest IH]; intros i e; simpl.
  - lia.
  - unfold bind. destruct (decide (localities prio = ∅)) as [Hempty|Hne].
    + rewrite (bool_decide_eq_true_2 _ Hempty).
      unfold ErrorMonad.AddError at 1. rewrite IH, size_AddError.
      simpl. lia.
    + rewrite (bool_decide_eq_false_2 _ Hne).
      unfold ret at 1. now rewrite IH.
Qed.

End ResourceFacts.

(** ** Where the errors are recorded *)

Module Within.
Import ValidationErrors StrFacts VEFacts Stable.

Lemma within_ret {A} (a : A) : within (ret a).
Proof. intros e k Hk. now left. Qed.

Lemma within_size : within ErrorMonad.size.
Proof. intros e k Hk. now left. Qed.

Lemma within_AddError msg : within (ErrorMonad.AddError msg).
Proof.
  intros e k Hk. unfold paths in Hk. cbn in Hk.
  apply add_at_keys in Hk as [->|Hk]; [right|now left].
  exists EmptyString. now rewrite append_nil_r.
Qed.

Lemma within_bind {A B} (c : V A) (f : A -> V B) :
  stable c -> within c -> (forall a, within (f a)) -> within (bind c f).
Proof.
  intros Hs Hc Hf e k. unfold bind.
  specialize (Hs e). specialize (Hc e k).
  destruct (c e) as [a e1]. cbn [snd] in Hs, Hc.
  intros Hk. destruct (Hf a e1 k Hk) as [Hin|[rel ->]].
  - now apply Hc.
  - right. exists rel. now rewrite (current_path_grows _ _ Hs).
Qed.

Lemma within_ScopedField {A} ext (body : V A) :
  within body -> within (ScopedField ext body).
Proof.
  intros Hb e k. unfold ScopedField.
  specialize (Hb (PushField ext e) k).
  destruct (body (PushField ext e)) as [a e1]. cbn [snd] in *.
  intros Hk. destruct (Hb Hk) as [Hin|[rel ->]]; [now left|].
  right. exists (ext ^^ rel).
  now rewrite current_path_PushField, append_assoc.
Qed.

Ltac within_step :=
  match goal with
  | |- forall _, _ => intro
  | |- within (ret _) => apply within_ret
  | |- within (ErrorMonad.AddError _) => apply within_AddError
  | |- within ErrorMonad.size => apply within_size
  | |- within (ScopedField _ _) => apply within_ScopedField
  | |- within (bind _ _) => apply within_bind; [try solve [stable]| |]
  | |- within (match ?x with _ => _ end) => destruct x
  end.

Ltac within := repeat within_step.

End Within.

Section ScopeFacts.
Import ValidationErrors StrFacts VEFacts Stable Within.

Context {collaborators : Collaborators}.

Lemma within_ServerAddressParse lb_endpoint :
  within (ServerAddressParse lb_endpoint).
Proof. unfold ServerAddressParse. within. Qed.

Lemma within_lb_endpoints_loop lb_endpoints :
  forall i acc, within (lb_endpoints_loop i lb_endpoints acc).
Proof.
  induction lb_endpoints as [|ep rest IH]; intros i acc; simpl.
  - within.
  - apply within_bind; [| |intro; apply IH].
    + apply stable_ScopedField, stable_ServerAddressParse.
    + apply within_ScopedField, within_ServerAddressParse.
Qed.

Lemma within_LocalityParse entry : within (LocalityParse entry).
Proof.
  unfold LocalityParse. within.
  - apply stable_lb_endpoints_loop.
  - apply within_lb_endpoints_loop.
Qed.

Lemma within_endpoints_step i entry ps : within (endpoints_step i entry ps).
Proof.
  unfold endpoints_step. within.
  - apply stable_LocalityParse.
  - apply within_LocalityParse.
Qed.

Lemma within_endpoints_loop entries :
  forall i ps, within (endpoints_loop i entries ps).
Proof.
  induction entries as [|en rest IH]; intros i ps; simpl.
  - within.
  - apply within_bind; [| |intro; apply IH].
    + apply stable_endpoints_step.
    + apply within_endpoints_step.
Qed.

Lemma within_empty_priorities_loop (ps : list Priority) :
  forall i, within (empty_priorities_loop i ps).
Proof.
  induction ps as [|p rest IH]; intros i; simpl.
  - within.
  - apply within_bind; [stable|within|intro; apply IH].
Qed.

Lemma within_DropParseAndAppend d cfg : within (DropParseAndAppend d cfg).
Proof. unfold DropParseAndAppend. within. Qed.

Lemma within_drop_overloads_loop ds :
  forall i cfg, within (drop_overloads_loop i ds cfg).
Proof.
  induction ds as [|d rest IH]; intros i cfg; simpl.
  - within.
  - apply within_bind; [| |intro; apply IH].
    + apply stable_ScopedField, stable_DropParseAndAppend.
    + apply within_ScopedField, within_DropParseAndAppend.
Qed.

(** X16: every path under which [EdsResourceParse] records an error
    begins with "endpoints" or with "policy". *)
Theorem error_paths_are_scoped cla k :
  In k (paths (snd (EdsResourceParse_run cla ValidationErrors.empty))) ->
  (exists rel, k = "endpoints" ^^ rel) \/ (exists rel, k = "policy" ^^ rel).
Proof.
  rewrite EdsResourceParse_run_unfold.
  set (e0 := PushField "endpoints" ValidationErrors.empty).
  pose proof (within_endpoints_loop (ClusterLoadAssignment_endpoints cla)
                0 [] e0) as W1.
  pose proof (stable_endpoints_loop (ClusterLoadAssignment_endpoints cla)
                0 [] e0) as G1.
  destruct (endpoints_loop _ _ _ _) as [ps e1]. cbn [snd] in W1, G1.
  pose proof (within_empty_priorities_loop ps 0 e1) as W2.
  pose proof (stable_empty_priorities_loop ps 0 e1) as G2.
  destruct (empty_priorities_loop 0 ps e1) as [[] e2]. cbn [snd] in W2, G2.
  assert (Hpath1 : current_path e1 = "endpoints")
    by (rewrite (current_path_grows _ _ G1); reflexivity).
  assert (Hpath2 : current_path (PopField e2) = EmptyString).
  { unfold current_path, PopField. cbn [fields_].
    rewrite (grows_fields _ _ G2), (grows_fields _ _ G1). reflexivity. }
  assert (H2 : forall k, In k (paths e2) -> exists rel, k = "endpoints" ^^ rel).
  { intros k0 Hk0. destruct (W2 k0 Hk0) as [Hin|[rel ->]].
    - destruct (W1 k0 Hin) as [[]|[rel ->]]. now exists rel.
    - rewrite Hpath1. now exists rel. }
  destruct (ClusterLoadAssignment_policy cla) as [policy|].
  - unfold ScopedField.
    pose proof (within_drop_overloads_loop (Policy_drop_overloads policy)
                  0 empty_DropConfig (PushField "policy" (PopField e2))) as W3.
    destruct (drop_overloads_loop _ _ _ _) as [cfg e3]. cbn [snd] in *.
    change (paths (PopField e3)) with (paths e3).
    intros Hk. destruct (W3 k Hk) as [Hin|[rel ->]].
    + left. now apply H2.
    + right. exists rel. now rewrite current_path_PushField, Hpath2.
  - cbn [snd]. intros Hk. left. now apply H2.
Qed.

End ScopeFacts.

(** ** The decode entry point and the absent name *)

Section DecodeFacts.
Import ValidationErrors StrFacts.

Context {collaborators : Collaborators}.

Lemma EdsResourceParse_not_unparseable cla :
  EdsResourceParse cla <>
    NotOk (InvalidArgumentError "Can't parse ClusterLoadAssignment resource.").
Proof.
  pose proof (EdsResourceParse_cases cla) as Hc.
  destruct (ok _); rewrite Hc; [discriminate|].
  unfold status_message, InvalidArgumentError. intros H.
  discriminate H.
Qed.

(** X17: the result of [Decode] has no name exactly when the bytes did
    not decode, and exactly when its resource is the failure
    "Can't parse ClusterLoadAssignment resource.": a failure of the
    validation never has that message and always comes with the name. *)
Theorem Decode_name_absent serialized_resource :
  (DecodeResult_name (Decode serialized_resource) = None <->
   ClusterLoadAssignment_parse serialized_resource = None) /\
  (DecodeResult_resource (Decode serialized_resource) =
     NotOk (InvalidArgumentError
              "Can't parse ClusterLoadAssignment resource.") <->
   ClusterLoadAssignment_parse serialized_resource = None).
Proof.
  unfold Decode.
  destruct (ClusterLoadAssignment_parse serialized_resource) as [cla|];
    cbn [DecodeResult_name DecodeResult_resource].
  - split; split; try discriminate.
    intros H. now apply EdsResourceParse_not_unparseable in H.
  - split; split; reflexivity.
Qed.

End DecodeFacts.

(** ** The drop decision, category by category *)

Section ShouldDropMore.

Variable rand : nat -> Z.

Lemma ShouldDrop_loop_app l1 :
  forall l2 calls,
    ShouldDrop_loop rand (l1 ++ l2) calls =
      match ShouldDrop_loop rand l1 calls with
      | (Some category_name, calls') => (Some category_name, calls')
      | (None, calls') => ShouldDrop_loop rand l2 calls'
      end.
Proof.
  induction l1 as [|c l1 IH]; intros l2 calls; simpl; [reflexivity|].
  destruct (random rand calls <? parts_per_million c); [reflexivity|].
  apply IH.
Qed.

(** X18: a drop config none of whose categories is above 0 parts per
    million, an empty one among them, never drops, and still makes one
    call of [rand()] for each category. *)
Theorem ShouldDrop_never d calls :
  Forall (fun c => parts_per_million c <= 0) (drop_category_list_ d) ->
  ShouldDrop rand d calls =
    (None, (calls + length (drop_category_list_ d))%nat).
Proof.
  unfold ShouldDrop. generalize (drop_category_list_ d). intros l.
  revert calls. induction l as [|c l IH]; intros calls Hall; simpl.
  - now rewrite Nat.add_0_r.
  - apply Forall_cons_1 in Hall as [Hc Hall].
    pose proof (random_range rand calls) as Hr.
    destruct (Z.ltb_spec (random rand calls) (parts_per_million c)); [lia|].
    rewrite IH by exact Hall. f_equal. lia.
Qed.

(** X19: a drop config with a category of 1,000,000 parts per million or
    more drops every call, whatever [rand()] returns: the categories
    before that one may drop first, and that one drops if none of them
    did. *)
Theorem ShouldDrop_always d calls c :
  In c (drop_category_list_ d) ->
  1000000 <= parts_per_million c ->
  exists category_name calls',
    ShouldDrop rand d calls = (Some category_name, calls').
Proof.
  intros Hin Hppm.
  pose proof (ShouldDrop_loop_spec rand (drop_category_list_ d) calls) as Hs.
  unfold ShouldDrop.
  destruct (ShouldDrop_loop rand (drop_category_list_ d) calls)
    as [[category_name|] calls']; [eauto|].
  destruct Hs as [Hall _].
  apply list_elem_of_In, list_elem_of_lookup in Hin as [j Hj].
  specialize (Hall j c Hj).
  pose proof (random_range rand (calls + j)). lia.
Qed.

(** X20: on a list of categories that is one list after another,
    [ShouldDrop] is [ShouldDrop] on the first list and, when that does not
    drop, [ShouldDrop] on the second list from the calls of [rand()] that
    are next. *)
Theorem ShouldDrop_app l1 l2 drop_all calls :
  ShouldDrop rand
    {| drop_category_list_ := l1 ++ l2; drop_all_ := drop_all |} calls =
    match ShouldDrop rand
            {| drop_category_list_ := l1; drop_all_ := drop_all |} calls with
    | (Some category_name, calls') => (Some category_name, calls')
    | (None, calls') =>
        ShouldDrop rand
          {| drop_category_list_ := l2; drop_all_ := drop_all |} calls'
    end.
Proof. unfold ShouldDrop. cbn [drop_category_list_]. apply ShouldDrop_loop_app. Qed.

End ShouldDropMore.

(** ** The distribution of a draw *)

Section DrawFacts.

Lemma rand_values_from_range start n r :
  In r (rand_values_from start n) -> start <= r < start + Z.of_nat n.
Proof.
  revert start. induction n as [|n IH]; intros start; simpl; [tauto|].
  intros [<-|Hin]; [lia|]. apply IH in Hin. lia.
Qed.

Lemma rand_values_range RAND_MAX r :
  0 <= RAND_MAX -> In r (rand_values RAND_MAX) -> 0 <= r <= RAND_MAX.
Proof.
  intros H Hin. apply rand_values_from_range in Hin.
  rewrite Z2Nat.id in Hin by lia. lia.
Qed.

(** Among the values from [start] to [start + n - 1], all of them values
    of a [uint32_t], those that give the draw [d]. *)
Lemma draws_giving_from start n d :
  0 <= start -> start + Z.of_nat n <= 2 ^ 32 -> 0 <= d < 1000000 ->
  Z.of_nat
    (length (List.filter (fun r => wrap32 r mod 1000000 =? d)
               (rand_values_from start n))) =
    (start + Z.of_nat n - 1 - d) / 1000000 - (start - 1 - d) / 1000000.
Proof.
  revert start. induction n as [|n IH]; intros start Hs Hn Hd.
  - cbn [rand_values_from List.filter length].
    replace (start + Z.of_nat 0 - 1 - d) with (start - 1 - d) by lia. lia.
  - cbn [rand_values_from List.filter].
    rewrite wrap32_small by lia.
    destruct (Z.eqb_spec (start mod 1000000) d) as [Heq|Hne].
    + cbn [length]. rewrite Nat2Z.inj_succ, IH by lia.
      replace (start + 1 + Z.of_nat n - 1 - d)
        with (start + Z.of_nat (S n) - 1 - d) by lia.
      replace (start + 1 - 1 - d) with (start - d) by lia.
      assert ((start - d) / 1000000 = (start - 1 - d) / 1000000 + 1)
        by (Z.div_mod_to_equations; lia).
      lia.
    + rewrite IH by lia.
      replace (start + 1 + Z.of_nat n - 1 - d)
        with (start + Z.of_nat (S n) - 1 - d) by lia.
      replace (start + 1 - 1 - d) with (start - d) by lia.
      assert ((start - d) / 1000000 = (start - 1 - d) / 1000000)
        by (Z.div_mod_to_equations; lia).
      lia.
Qed.

(** The number of values of [rand()] that give the draw [d]. *)
Lemma draws_giving_count RAND_MAX d :
  0 <= RAND_MAX < 2 ^ 32 -> 0 <= d < 1000000 ->
  Z.of_nat (draws_giving RAND_MAX d) = (RAND_MAX - d) / 1000000 + 1.
Proof.
  intros HM Hd. unfold draws_giving, rand_values.
  rewrite draws_giving_from by (rewrite ?Z2Nat.id; lia).
  rewrite Z2Nat.id by lia.
  replace (0 + (RAND_MAX + 1) - 1 - d) with (RAND_MAX - d) by lia.
  assert ((0 - 1 - d) / 1000000 = -1) by (Z.div_mod_to_equations; lia).
  lia.
Qed.

(** The draw is uniformly distributed exactly when 1,000,000 divides the
    number of values of [rand()]. *)
Lemma draw_is_uniform_iff RAND_MAX :
  0 <= RAND_MAX < 2 ^ 32 ->
  draw_is_uniform RAND_MAX <-> (RAND_MAX + 1) mod 1000000 = 0.
Proof.
  intros HM. split.
  - intros Hu.
    assert (H : Z.of_nat (draws_giving RAND_MAX 0) =
                Z.of_nat (draws_giving RAND_MAX 999999))
      by (f_equal; apply Hu; lia).
    rewrite !draws_giving_count in H by lia.
    Z.div_mod_to_equations. lia.
  - intros Hdiv d d' Hd Hd'. apply Nat2Z.inj.
    rewrite !draws_giving_count by lia.
    Z.div_mod_to_equations. lia.
Qed.

(** A category above every value of [rand()] drops each call. *)
Lemma ShouldDrop_above_RAND_MAX RAND_MAX r c drop_all :
  0 <= RAND_MAX < 1000000 ->
  RAND_MAX < parts_per_million c ->
  In r (rand_values RAND_MAX) ->
  ShouldDrop (fun _ => r)
    {| drop_category_list_ := [c]; drop_all_ := drop_all |} 0 =
    (Some (DropCategory_name c), 1%nat).
Proof.
  intros HM Hc Hin. apply rand_values_range in Hin; [|lia].
  unfold ShouldDrop. cbn [drop_category_list_ ShouldDrop_loop].
  unfold random. rewrite wrap32_small by lia.
  rewrite Z.mod_small by lia.
  destruct (Z.ltb_spec r (parts_per_million c)); [reflexivity|lia].
Qed.

End DrawFacts.

(** * The properties on sample inputs *)

Section Samples.
Import ValidationErrors.

#[local] Existing Instance Sample.collaborators.

(** The message of an EDS parse that fails does not begin with
    "errors validating". *)
Lemma eds_message_prefix_counterexample :
  exists st,
    DecodeResult_resource (Decode [Byte.x01]) = NotOk st /\
    message st =
      "errors parsing EDS resource: [field:endpoints[0].locality error:field not present]" /\
    ~ exists type rest,
        message st = "errors validating " ^^ type ^^ " resource: " ^^ rest.
Proof.
  eexists. split; [reflexivity|]. split; [reflexivity|].
  intros (type & rest & H). vm_compute in H. discriminate H.
Qed.

Lemma Decode_contract_witness :
  Decode [Byte.x00] =
    {| DecodeResult_name := None;
       DecodeResult_resource :=
         NotOk {| code := kInvalidArgument;
                  message := "Can't parse ClusterLoadAssignment resource." |}
    |} /\
  DecodeResult_name (Decode [Byte.x01]) = Some "foo" /\
  DecodeResult_resource (Decode [Byte.x01]) =
    EdsResourceParse Sample.cla_without_locality.
Proof.
  split.
  - apply (proj1 (Decode_contract [Byte.x00])).
    reflexivity.
  - apply (proj2 (Decode_contract [Byte.x01]) Sample.cla_without_locality).
    reflexivity.
Defined.

(** A resource whose one locality has weight 0 parses to a resource
    without priorities. *)
Example zero_weight_locality_is_omitted :
  EdsResourceParse Sample.cla_zero_weight =
    IsOk {| priorities := []; drop_config := empty_DropConfig |}.
Proof. reflexivity. Qed.

(** A locality of weight 0 and an endpoint that is UNHEALTHY (2). *)
Lemma skipped_elements_record_no_error_witness :
  LocalityParse (Sample.locality_entry (Some 0) "r" [] 0)
    ValidationErrors.empty = (None, ValidationErrors.empty) /\
  endpoints_step 0 (Sample.locality_entry None "r" [] 0) []
    ValidationErrors.empty = ([], ValidationErrors.empty) /\
  ServerAddressParse
    (Sample.lb_endpoint 2 None "10.0.0.1" 443) ValidationErrors.empty =
    (None, ValidationErrors.empty).
Proof.
  destruct skipped_elements_record_no_error as (H1 & H2 & H3 & _).
  split; [|split].
  - apply H1. right. reflexivity.
  - apply H2. left. reflexivity.
  - apply H3; discriminate.
Defined.

Lemma locality_with_error_is_dropped_witness :
  fst (LocalityParse Sample.entry_without_locality
         ValidationErrors.empty) = None /\
  fst (endpoints_step 0 Sample.entry_without_locality []
         ValidationErrors.empty) = [] /\
  exists st, EdsResourceParse Sample.cla_without_locality = NotOk st.
Proof.
  destruct locality_with_error_is_dropped as (H1 & H2 & H3).
  split; [|split].
  - apply H1. vm_compute. discriminate.
  - apply H2. vm_compute. discriminate.
  - apply (H3 Sample.cla_without_locality 0%nat Sample.entry_without_locality
             ValidationErrors.empty); [reflexivity|].
    vm_compute. discriminate.
Defined.

Example duplicate_locality_status :
  EdsResourceParse Sample.cla_duplicate =
    NotOk (InvalidArgumentError
      "errors parsing EDS resource: [field:endpoints[1] error:duplicate locality {region=r, zone=z, sub_zone=s} found in priority 0]").
Proof. reflexivity. Qed.


Example empty_priority_status :
  EdsResourceParse Sample.cla_gap =
    NotOk (InvalidArgumentError
      "errors parsing EDS resource: [field:endpoints error:priority 1 empty]").
Proof. reflexivity. Qed.

Lemma empty_priority_is_rejected_witness :
  In "priority 1 empty" (at_path "endpoints" (snd (EdsResourceParse_run Sample.cla_gap
                                                     ValidationErrors.empty))) /\
  (exists st, EdsResourceParse Sample.cla_gap = NotOk st /\
              code st = kInvalidArgument) /\
  Forall (fun prio => localities prio <> ∅)
    (priorities (fst (EdsResourceParse_run Sample.cla_good ValidationErrors.empty))).
Proof.
  destruct empty_priority_is_rejected as (H1 & H2 & H3).
  split; [|split].
  - apply (H2 Sample.cla_gap 1%nat {| localities := ∅ |}); reflexivity.
  - apply H3. reflexivity.
  - apply (H1 Sample.cla_good). reflexivity.
Defined.

(** Numerator 429497 with denominator HUNDRED: the product does not fit
    in a [uint32_t] and what is left of it, 2704, is stored. *)
Example drop_percentage_wraps :
  map parts_per_million
    (drop_category_list_
       (fst (DropParseAndAppend
               (drop_overload_of "lb" 429497
                  envoy_type_v3_FractionalPercent_HUNDRED)
               empty_DropConfig ValidationErrors.empty))) = [2704].
Proof. reflexivity. Qed.

Lemma drop_percentage_normalization_witness :
  exists ppm,
    drop_category_list_
      (fst (DropParseAndAppend
              (drop_overload_of "lb" 50
                 envoy_type_v3_FractionalPercent_HUNDRED)
              empty_DropConfig ValidationErrors.empty)) =
      [{| DropCategory_name := "lb"; parts_per_million := ppm |}] /\
    ppm = 500000.
Proof.
  destruct (drop_percentage_normalization "lb" 50
              envoy_type_v3_FractionalPercent_HUNDRED empty_DropConfig
              ValidationErrors.empty ltac:(lia))
    as (ppm & Hlist & _ & Hhundred & _).
  exists ppm. split; [exact Hlist|].
  rewrite Hhundred; [reflexivity|reflexivity|lia].
Defined.

Lemma hundred_equals_scaled_ten_thousand_witness :
  DropParseAndAppend
    (drop_overload_of "lb" 50 envoy_type_v3_FractionalPercent_HUNDRED)
    empty_DropConfig ValidationErrors.empty =
  DropParseAndAppend
    (drop_overload_of "lb" 5000 envoy_type_v3_FractionalPercent_TEN_THOUSAND)
    empty_DropConfig ValidationErrors.empty.
Proof.
  apply (hundred_equals_scaled_ten_thousand "lb" 50 empty_DropConfig
           ValidationErrors.empty); lia.
Defined.

(** With one draw for each category, the second category drops a call
    that the first category let through on a higher draw. *)
Example ShouldDrop_draws_per_category :
  ShouldDrop Sample.rand Sample.two_categories 0 = (Some "b", 2%nat).
Proof. reflexivity. Qed.

(** The durations of the tests [DurationTest.Basic] and
    [DurationTest.NegativeNumbers]. *)
Lemma ParseDuration_ranges_witness :
  ParseDuration {| Duration_seconds := 1; Duration_nanos := 2000000 |}
    ValidationErrors.empty = (1002, ValidationErrors.empty) /\
  field_errors_
    (snd (ParseDuration {| Duration_seconds := -1; Duration_nanos := -2 |}
            ValidationErrors.empty)) =
    [("nanos", ["value must be in the range [0, 999999999]"]);
     ("seconds", ["value must be in the range [0, 315576000000]"])].
Proof.
  split.
  - apply (proj1 (ParseDuration_ranges
                    {| Duration_seconds := 1; Duration_nanos := 2000000 |}));
      unfold seconds_in_range, nanos_in_range; simpl; lia.
  - apply (proj2 (proj2 (ParseDuration_ranges
                           {| Duration_seconds := -1; Duration_nanos := -2 |})));
      unfold seconds_in_range, nanos_in_range; simpl; lia.
Defined.

(** The status of [DurationTest.NegativeNumbers]. *)
Example ParseDuration_negative_status :
  status_message "validation failed"
    (snd (ParseDuration {| Duration_seconds := -1; Duration_nanos := -2 |}
            ValidationErrors.empty)) =
  "validation failed: [field:nanos error:value must be in the range [0, 999999999]; field:seconds error:value must be in the range [0, 315576000000]]".
Proof. reflexivity. Qed.

End Samples.

(** * The further properties on sample inputs *)

Section MoreOnSamples.
Import ValidationErrors MoreSamples.

#[local] Existing Instance Sample.collaborators.

Lemma ep_good_resolves : resolves ep_good sa_good.
Proof.
  exists (socket_of "10.0.0.1" 443), addr_good.
  repeat split; discriminate.
Qed.

Lemma ServerAddressParse_resolved_witness :
  ServerAddressParse ep_good ValidationErrors.empty =
    (Some sa_good, ValidationErrors.empty).
Proof.
  destruct (ServerAddressParse_resolved ep_good ValidationErrors.empty
              (socket_of "10.0.0.1" 443) addr_good
              eq_refl eq_refl ltac:(cbn; lia) eq_refl) as [Heq _].
  rewrite Heq. reflexivity.
Defined.

Lemma ServerAddressParse_zero_weight_witness :
  In "must be greater than 0"
     (at_path ".load_balancing_weight"
        (snd (ServerAddressParse ep_zero_weight ValidationErrors.empty))).
Proof.
  apply (ServerAddressParse_zero_weight ep_zero_weight ValidationErrors.empty
           eq_refl eq_refl VEFacts.wf_empty).
Defined.

Lemma ServerAddressParse_missing_field_witness :
  ServerAddressParse ep_without_endpoint ValidationErrors.empty =
    (None, record_at ".endpoint" "field not present" ValidationErrors.empty).
Proof.
  apply (proj1 (ServerAddressParse_missing_field ep_without_endpoint
                  ValidationErrors.empty eq_refl)).
  reflexivity.
Defined.

Lemma ServerAddressParse_invalid_port_witness :
  ServerAddressParse ep_big_port ValidationErrors.empty =
    (None, record_at ".endpoint.address.socket_address.port_value"
             "invalid port" ValidationErrors.empty).
Proof.
  apply (ServerAddressParse_invalid_port ep_big_port ValidationErrors.empty
           (socket_of "10.0.0.1" 65536) eq_refl eq_refl).
  cbn. lia.
Defined.

Lemma ServerAddressParse_unresolved_witness :
  ServerAddressParse ep_unresolved ValidationErrors.empty =
    (Some {| ServerAddress_address := None;
             ServerAddressWeightAttribute := 1 |},
     record_at ".endpoint.address.socket_address" "Failed to parse address"
       ValidationErrors.empty).
Proof.
  apply (ServerAddressParse_unresolved ep_unresolved ValidationErrors.empty
           (socket_of EmptyString 80)
           (InvalidArgumentError "Failed to parse address"));
    [reflexivity|reflexivity|cbn; lia|reflexivity].
Defined.

Lemma ServerAddressParse_returns_resolved_witness :
  healthy ep_good = true /\ resolves ep_good sa_good.
Proof.
  apply (ServerAddressParse_returns_resolved ep_good ValidationErrors.empty
           sa_good).
  reflexivity.
Defined.

Lemma entry_good_described : describes entry_good parsed_good.
Proof.
  exists 3, {| Locality_region := "r"; Locality_zone := "z";
               Locality_sub_zone := "s" |}.
  repeat split; try discriminate.
  cbn. constructor; [exact ep_good_resolves|constructor].
Qed.

Lemma LocalityParse_returns_described_witness :
  LocalityParse entry_good ValidationErrors.empty =
    (Some parsed_good, ValidationErrors.empty).
Proof.
  apply (LocalityParse_returns_described entry_good ValidationErrors.empty
           parsed_good ValidationErrors.empty).
  split; [reflexivity|exact entry_good_described].
Defined.

Lemma LocalityParse_missing_locality_witness :
  LocalityParse Sample.entry_without_locality ValidationErrors.empty =
    (None, record_at ".locality" "field not present" ValidationErrors.empty).
Proof.
  apply (proj1 (LocalityParse_missing_locality Sample.entry_without_locality
                  ValidationErrors.empty 1 []
                  eq_refl ltac:(discriminate) eq_refl)).
Defined.

Lemma DropParseAndAppend_missing_percentage_witness :
  fst (DropParseAndAppend
         {| DropOverload_category := "lb";
            DropOverload_drop_percentage := None |}
         empty_DropConfig ValidationErrors.empty) = empty_DropConfig.
Proof.
  apply (DropParseAndAppend_missing_percentage
           {| DropOverload_category := "lb";
              DropOverload_drop_percentage := None |}
           empty_DropConfig ValidationErrors.empty eq_refl).
Defined.

Lemma DropParseAndAppend_empty_category_witness :
  exists ppm,
    DropParseAndAppend
      (drop_overload_of EmptyString 50 envoy_type_v3_FractionalPercent_HUNDRED)
      empty_DropConfig ValidationErrors.empty =
      (AddCategory EmptyString ppm empty_DropConfig,
       record_at ".category" "empty drop category name"
         ValidationErrors.empty) /\
    ppm <= 1000000.
Proof.
  apply (DropParseAndAppend_empty_category 50
           envoy_type_v3_FractionalPercent_HUNDRED empty_DropConfig
           ValidationErrors.empty).
  left. reflexivity.
Defined.

Lemma cla_full_accepted : EdsResourceParse cla_full = IsOk resource_full.
Proof. vm_compute. reflexivity. Qed.

Lemma accepted_drop_categories_witness :
  Forall2 drops_as (policy_drop_overloads cla_full)
    (drop_category_list_ (drop_config resource_full)).
Proof.
  apply (accepted_drop_categories cla_full resource_full cla_full_accepted).
Defined.

Lemma accepted_localities_are_stored_witness :
  exists parsed,
    describes (Sample.locality_entry (Some 3) "r" [ep_good; ep_draining] 0)
      parsed /\
    holds (priorities resource_full) (priority parsed)
      (name (locality parsed)) (locality parsed).
Proof.
  apply (accepted_localities_are_stored cla_full resource_full 0%nat
           (Sample.locality_entry (Some 3) "r" [ep_good; ep_draining] 0) 3
           cla_full_accepted eq_refl eq_refl).
  discriminate.
Defined.

Lemma accepted_localities_are_distinct_witness :
  ~ (Z.to_nat 0 = Z.to_nat 0 /\
     locality_name {| Locality_region := "r"; Locality_zone := "z";
                      Locality_sub_zone := "s" |} =
     locality_name {| Locality_region := "q"; Locality_zone := "z";
                      Locality_sub_zone := "s" |}).
Proof.
  apply (accepted_localities_are_distinct cla_full resource_full 0%nat 1%nat
           (Sample.locality_entry (Some 3) "r" [ep_good; ep_draining] 0)
           (Sample.locality_entry (Some 1) "q" [] 0) 3 1
           {| Locality_region := "r"; Locality_zone := "z";
              Locality_sub_zone := "s" |}
           {| Locality_region := "q"; Locality_zone := "z";
              Locality_sub_zone := "s" |}
           cla_full_accepted); try reflexivity; try discriminate. lia.
Defined.

Lemma error_paths_are_scoped_witness :
  (exists rel,
     "policy.drop_overloads[0].drop_percentage"%string = "endpoints" ^^ rel) \/
  (exists rel,
     "policy.drop_overloads[0].drop_percentage"%string = "policy" ^^ rel).
Proof.
  apply (error_paths_are_scoped cla_two_errors).
  vm_compute. right. left. reflexivity.
Defined.

Lemma Decode_name_absent_witness :
  DecodeResult_name (Decode [Byte.x00]) = None /\
  DecodeResult_resource (Decode [Byte.x00]) =
    NotOk (InvalidArgumentError "Can't parse ClusterLoadAssignment resource.").
Proof.
  destruct (Decode_name_absent [Byte.x00]) as [Hname Hres]. split.
  - apply Hname. reflexivity.
  - apply Hres. reflexivity.
Defined.

Lemma ShouldDrop_never_witness :
  ShouldDrop Sample.rand drop_nothing 0 = (None, 1%nat).
Proof.
  apply (ShouldDrop_never Sample.rand drop_nothing 0%nat).
  repeat constructor. cbn. lia.
Defined.

Lemma ShouldDrop_always_witness :
  exists category_name calls',
    ShouldDrop Sample.rand drop_all_last 0 = (Some category_name, calls').
Proof.
  apply (ShouldDrop_always Sample.rand drop_all_last 0%nat
           {| DropCategory_name := "all"; parts_per_million := 1000000 |}).
  - right. left. reflexivity.
  - cbn. lia.
Defined.

End MoreOnSamples.

(** * The properties at the edges *)

Section EdgeCases.
Import ValidationErrors.

#[local] Existing Instance EdgeSamples.collaborators.

(** A message with three fields, the first of them with two messages:
    the paths are in lexicographic order, which is not the order in which
    they were recorded, the two messages of "endpoints" are joined by
    ", " in the order of their priorities, and the fields by "; ". *)
Lemma eds_error_message_format_witness :
  field_errors_
    (snd (EdsResourceParse_run EdgeSamples.cla_three_fields
            ValidationErrors.empty)) =
    [("endpoints", ["priority 0 empty"; "priority 1 empty"]);
     ("endpoints[0].locality", ["field not present"]);
     ("policy.drop_overloads[0].drop_percentage", ["field not present"])] /\
  StronglySorted Str.lt
    ["endpoints"; "endpoints[0].locality";
     "policy.drop_overloads[0].drop_percentage"] /\
  DecodeResult_resource (Decode [Byte.x03]) =
    NotOk {| code := kInvalidArgument;
             message :=
               "errors parsing EDS resource: [field:endpoints error:priority 0 empty, priority 1 empty; field:endpoints[0].locality error:field not present; field:policy.drop_overloads[0].drop_percentage error:field not present]" |}.
Proof.
  destruct (eds_error_message_format [Byte.x03] EdgeSamples.cla_three_fields)
    as (_ & Hsorted & _ & Hmessage); [reflexivity|reflexivity|].
  split; [reflexivity|]. split; [exact Hsorted|exact Hmessage].
Defined.

(** The entry of 429497 per HUNDRED on its way through [Decode]: the
    resource is accepted, with 2704 parts per million for the category. *)
Example Decode_wrapping_drop :
  exists r,
    DecodeResult_resource (Decode [Byte.x04]) = IsOk r /\
    drop_category_list_ (drop_config r) =
      [{| DropCategory_name := "lb"; parts_per_million := 2704 |}].
Proof. eexists. split; reflexivity. Qed.

(** The draw is not uniformly distributed in [0, 1000000).  Where
    [RAND_MAX] is 32767, one value of [rand()] gives the draw 0 and none
    gives the draw 40000, and a category of 40,000 parts per million
    drops the call for each value that [rand()] can return.  Where
    [RAND_MAX] is 2147483647, 2148 values of [rand()] give the draw 0 and
    2147 give the draw 999999. *)
Lemma ShouldDrop_draw_not_uniform :
  (~ draw_is_uniform 32767 /\
   draws_giving 32767 0 = 1%nat /\
   draws_giving 32767 40000 = 0%nat /\
   Forall (fun r => ShouldDrop (fun _ => r) EdgeSamples.four_percent 0 =
                      (Some "a", 1%nat))
     (rand_values 32767)) /\
  (~ draw_is_uniform 2147483647 /\
   draws_giving 2147483647 0 = 2148%nat /\
   draws_giving 2147483647 999999 = 2147%nat).
Proof.
  assert (Hcount : forall RAND_MAX d n,
            0 <= RAND_MAX < 2 ^ 32 -> 0 <= d < 1000000 ->
            (RAND_MAX - d) / 1000000 + 1 = Z.of_nat n ->
            draws_giving RAND_MAX d = n).
  { intros RAND_MAX d n HM Hd Hn. apply Nat2Z.inj.
    now rewrite draws_giving_count. }
  split; [split; [|split; [|split]]|split; [|split]].
  - intros Hu. apply draw_is_uniform_iff in Hu; [|lia]. discriminate Hu.
  - apply Hcount; [lia|lia|reflexivity].
  - apply Hcount; [lia|lia|reflexivity].
  - apply Forall_forall. intros r Hin.
    apply (ShouldDrop_above_RAND_MAX 32767 r
             {| DropCategory_name := "a"; parts_per_million := 40000 |} false);
      [lia|cbn; lia|].
    now apply list_elem_of_In.
  - intros Hu. apply draw_is_uniform_iff in Hu; [|lia]. discriminate Hu.
  - apply Hcount; [lia|lia|reflexivity].
  - apply Hcount; [lia|lia|reflexivity].
Qed.

End EdgeCases.
